(** * sh-function: type-erased callable containers

    A shallow embedding of the headers under [sh/]:
    [copyable_function.hpp], [move_only_function.hpp],
    [inplace_copyable_function.hpp], [inplace_move_only_function.hpp],
    [function_ptr.hpp] and [function_ref.hpp].

    The four owning class templates are textual siblings; they are embedded
    once, parameterised by a [variant], and the places where the sources
    differ are written as a [match] on the variant.  Member functions are
    programs of a state-and-error monad over a [world] that holds every
    container member, the transient storage of [swap], the free store and
    the integers that payloads count their resources in.  The call
    signature is fixed to one integer argument and an integer result. *)

From stdpp Require Import base option gmap.
From Stdlib Require Import ZArith Lia.

Set Default Proof Using "Type".

(** ** Payload types and objects *)

(** Addresses of containers ([this]), of objects made by [new], and of the
    [int]s that the tests' [counter] points at. *)
Abbreviation loc := nat.
Abbreviation addr := nat.

(** What the templates ask of a [Callable] at compile time. [type_name]
    stands for the identity of the class: there is one operation table per
    concrete type. *)
Record callable_type := {
  type_name : nat;
  sizeof : nat;
  is_nothrow_move_constructible : bool;
  is_nothrow_invocable : bool;
}.

#[global] Instance callable_type_eq_dec : EqDecision callable_type.
Proof. solve_decision. Defined.

(** A payload object, shaped like the closures of the tests,
    [[c = counter(&value), state](int x) mutable { ... }]:
    [m_value] is [counter::m_value] (nullptr after being moved from) and
    [o_state] the captured data that [operator()] may update. *)
Record object := {
  o_type : callable_type;
  m_value : option addr;
  o_state : Z;
}.

#[global] Instance object_eq_dec : EqDecision object.
Proof. solve_decision. Defined.

(** The storage member. For the heap-fallback classes it is the union
    [{ m_inplace[capacity]; m_allocated }]; for the in-place classes only the
    first alternative is ever written. *)
Inductive storage :=
  | Indeterminate               (* no live object: fresh or destroyed *)
  | Inplace (o : object)       (* an object constructed in m_inplace *)
  | Allocated (p : addr).      (* m_allocated = p *)

(** A reference to a storage: the [m_storage] member of the container at
    [l], or the local [temp] of [swap]. *)
Inductive sref :=
  | m_storage (l : loc)
  | temp.

(** The four owning class templates; the in-place ones carry their
    [Capacity]. *)
Inductive variant :=
  | copyable_function
  | move_only_function
  | inplace_copyable_function (Capacity : nat)
  | inplace_move_only_function (Capacity : nat).

(** The value of an [m_vtable] pointer: the address of one of the function
    local statics [null_vtable()] and [callable_vtable<Callable>()]
    ([invocable_vtable] in copyable_function.hpp). *)
Inductive vtable_ref :=
  | null_vtable
  | callable_vtable (T : callable_type).

#[global] Instance vtable_ref_eq_dec : EqDecision vtable_ref.
Proof. solve_decision. Defined.

(** ** Machine state and outcomes *)

Record world := World {
  w_vtable : gmap loc (option vtable_ref);  (* l |-> m_vtable of the container at l; None is nullptr *)
  w_storage : gmap loc storage;             (* l |-> m_storage of the container at l *)
  w_temp : storage;                         (* the local temp of swap *)
  w_heap : gmap addr object;                (* objects made by new *)
  w_ints : gmap addr Z;                     (* the ints that counters point at *)
}.

Inductive exception :=
  | bad_function_call
  | payload_exception.    (* thrown by a constructor of the Callable *)

Inductive outcome (A : Type) :=
  | Ok (a : A) (w : world)
  | Throw (e : exception) (w : world)   (* an exception in flight; the state at the throw *)
  | Terminate                            (* std::terminate *)
  | AssertFail                           (* a failed assert: abort *)
  | IllFormed                            (* rejected by static_assert or overload resolution *)
  | UB.                                  (* undefined behaviour *)
Arguments Ok {A} a w.
Arguments Throw {A} e w.
Arguments Terminate {A}.
Arguments AssertFail {A}.
Arguments IllFormed {A}.
Arguments UB {A}.

Definition M (A : Type) : Type := world -> outcome A.

Definition ret {A} (a : A) : M A := fun w => Ok a w.

Definition bind {A B} (m : M A) (k : A -> M B) : M B := fun w =>
  match m w with
  | Ok a w' => k a w'
  | Throw e w' => Throw e w'
  | Terminate => Terminate
  | AssertFail => AssertFail
  | IllFormed => IllFormed
  | UB => UB
  end.

#[global] Instance M_ret : MRet M := @ret.
#[global] Instance M_bind : MBind M := fun A B k m => bind m k.

Definition fail {A} (o : outcome A) : M A := fun _ => o.

Definition throw {A} (e : exception) : M A := fun w => Throw e w.

(** A function declared [noexcept]: an escaping exception terminates. *)
Definition noexcept {A} (m : M A) : M A := fun w =>
  match m w with
  | Throw _ _ => Terminate
  | r => r
  end.

(** ** Memory primitives *)

Definition get_vtable (l : loc) : M vtable_ref := fun w =>
  match w_vtable w !! l with
  | Some (Some v) => Ok v w
  | _ => UB
  end.

Definition set_vtable (l : loc) (v : vtable_ref) : M unit := fun w =>
  match w_vtable w !! l with
  | Some _ =>
      Ok tt (World (<[l := Some v]> (w_vtable w)) (w_storage w) (w_temp w) (w_heap w) (w_ints w))
  | None => UB
  end.

(** [std::exchange(other.m_vtable, &null_vtable())] *)
Definition exchange_vtable (l : loc) (v : vtable_ref) : M vtable_ref :=
  old ← get_vtable l;
  set_vtable l v;;
  ret old.

Definition load (s : sref) : M storage := fun w =>
  match s with
  | m_storage l =>
      match w_storage w !! l with
      | Some x => Ok x w
      | None => UB
      end
  | temp => Ok (w_temp w) w
  end.

Definition store (s : sref) (x : storage) : M unit := fun w =>
  match s with
  | m_storage l =>
      match w_storage w !! l with
      | Some _ =>
          Ok tt (World (w_vtable w) (<[l := x]> (w_storage w)) (w_temp w) (w_heap w) (w_ints w))
      | None => UB
      end
  | temp => Ok tt (World (w_vtable w) (w_storage w) x (w_heap w) (w_ints w))
  end.

(** The members of a container come into being when its constructor starts
    ([m_vtable] not yet pointing anywhere) and go away after its destructor. *)
Definition begin_lifetime (l : loc) (v : option vtable_ref) : M unit := fun w =>
  Ok tt (World (<[l := v]> (w_vtable w)) (<[l := Indeterminate]> (w_storage w))
               (w_temp w) (w_heap w) (w_ints w)).

Definition end_lifetime (l : loc) : M unit := fun w =>
  Ok tt (World (delete l (w_vtable w)) (delete l (w_storage w))
               (w_temp w) (w_heap w) (w_ints w)).

(** [new Callable{...}] and [delete]. The address is one not in use, and
    not the null pointer. *)
Definition nullptr : addr := 0.

Definition new_object (o : object) : M addr := fun w =>
  let p := fresh ({[nullptr]} ∪ dom (w_heap w)) in
  Ok p (World (w_vtable w) (w_storage w) (w_temp w) (<[p := o]> (w_heap w)) (w_ints w)).

Definition deref (T : callable_type) (p : addr) : M object := fun w =>
  match w_heap w !! p with
  | Some o => if decide (o_type o = T) then Ok o w else UB
  | None => UB
  end.

Definition write_object (p : addr) (o : object) : M unit := fun w =>
  Ok tt (World (w_vtable w) (w_storage w) (w_temp w) (<[p := o]> (w_heap w)) (w_ints w)).

Definition free (p : addr) : M unit := fun w =>
  match w_heap w !! p with
  | Some _ => Ok tt (World (w_vtable w) (w_storage w) (w_temp w) (delete p (w_heap w)) (w_ints w))
  | None => UB
  end.

(** [reinterpret_cast<Callable&>(storage.m_inplace)]: an object of type
    [Callable] must be alive there. *)
Definition as_inplace (T : callable_type) (s : sref) : M object :=
  x ← load s;
  match x with
  | Inplace o => if decide (o_type o = T) then ret o else fail UB
  | _ => fail UB
  end.

(** [storage.m_allocated]: reading the pointer member of the union. *)
Definition as_allocated (s : sref) : M addr :=
  x ← load s;
  match x with
  | Allocated p => ret p
  | _ => fail UB
  end.

(** ** The special member functions of a payload (the tests' [counter]) *)

Definition count (w : world) (a : addr) : Z := default 0%Z (w_ints w !! a).

Definition add_count (a : addr) (d : Z) : M unit := fun w =>
  Ok tt (World (w_vtable w) (w_storage w) (w_temp w) (w_heap w)
               (<[a := (count w a + d)%Z]> (w_ints w))).

(** [~Callable()]: when [m_value] is not nullptr, decrement the int it
    points at. *)
Definition destructor (o : object) : M unit :=
  match m_value o with
  | Some a => add_count a (-1)%Z
  | None => ret tt
  end.

(** [Callable(const Callable&)]: [m_value(other.m_value)], then increment
    the int it points at when it is not nullptr. *)
Definition copy_constructor (o : object) : M object :=
  match m_value o with
  | Some a => add_count a 1%Z;; ret o
  | None => ret o
  end.

(** [Callable(Callable&&)]: [m_value(other.m_value)], then
    [other.m_value = nullptr]. Returns the new object and what is left of
    the source. *)
Definition moved_from (o : object) : object :=
  {| o_type := o_type o; m_value := None; o_state := o_state o |}.

Definition move_constructor (o : object) : object * object := (o, moved_from o).

(** ** Arguments bound to a container *)

Inductive value_category := lvalue | rvalue.

(** The argument of the converting constructor and assignment,
    [Callable&& callable]: the object it designates, whether it is forwarded
    as an lvalue (copied from) or an rvalue (moved from), and whether the
    constructor of [std::decay_t<Callable>] selected for it throws. *)
Record callable_arg := {
  arg_object : object;
  arg_category : value_category;
  arg_throws : bool;
}.

(** [callable_type{ std::forward<Callable>(callable) }] *)
Definition construct (a : callable_arg) : M object :=
  if arg_throws a then throw payload_exception
  else match arg_category a with
       | lvalue => copy_constructor (arg_object a)
       | rvalue => ret (fst (move_constructor (arg_object a)))
       end.

(** What the language does around a constructor body: when the body throws,
    the object never comes to life and its destructor is not run. *)
Definition constructor (this : loc) (body : M unit) : M unit := fun w =>
  match body w with
  | Throw e w' =>
      match end_lifetime this w' with
      | Ok _ w'' => Throw e w''
      | r => r
      end
  | r => r
  end.

Definition set_state (o : object) (st : Z) : object :=
  {| o_type := o_type o; m_value := m_value o; o_state := st |}.

(** ** The non-owning wrappers *)

(** The argument of [function_ptr] and [function_ref]'s converting
    constructor, [Callable&& callable]. *)
Inductive argument :=
  (** the name of a function, an lvalue of function type; [f] is the
      address of the function *)
  | arg_function (f : addr) (nothrow : bool)
  (** an expression of type pointer to function: its value category, the
      address of the pointer object it designates (a variable or a
      temporary) and the value of that pointer *)
  | arg_function_pointer (c : value_category) (at_ : addr) (value : addr) (nothrow : bool)
  (** a functor or a closure object living at [at_] *)
  | arg_functor (c : value_category) (T : callable_type) (at_ : addr).

(** The types that [Callable] is deduced to. *)
Inductive cpp_type :=
  | t_function
  | t_class (T : callable_type)
  | t_pointer (t : cpp_type)
  | t_lvalue_reference (t : cpp_type).

#[global] Instance cpp_type_eq_dec : EqDecision cpp_type.
Proof. solve_decision. Defined.

(** Deduction of [Callable] from a forwarding reference: [T&] for an lvalue
    of type [T], [T] for an rvalue. *)
Definition forwarded (c : value_category) (t : cpp_type) : cpp_type :=
  match c with
  | lvalue => t_lvalue_reference t
  | rvalue => t
  end.

Definition Callable (a : argument) : cpp_type :=
  match a with
  | arg_function _ _ => t_lvalue_reference t_function
  | arg_function_pointer c _ _ _ => forwarded c (t_pointer t_function)
  | arg_functor c T _ => forwarded c (t_class T)
  end.

(** [std::is_pointer_v]: false for a reference to a pointer. *)
Definition is_pointer_v (t : cpp_type) : bool :=
  match t with
  | t_pointer _ => true
  | _ => false
  end.

(** [std::add_pointer_t]: a pointer to the referred-to type. *)
Definition add_pointer_t (t : cpp_type) : cpp_type :=
  match t with
  | t_lvalue_reference t' => t_pointer t'
  | _ => t_pointer t
  end.

(** [std::addressof(callable)] *)
Definition addressof (a : argument) : addr :=
  match a with
  | arg_function f _ => f
  | arg_function_pointer _ at_ _ _ => at_
  | arg_functor _ _ at_ => at_
  end.

(** [reinterpret_cast<void*>(callable)], for a [callable] that is a pointer. *)
Definition pointer_value (a : argument) : addr :=
  match a with
  | arg_function_pointer _ _ value _ => value
  | _ => addressof a
  end.

Definition is_nothrow_invocable_r_v (a : argument) : bool :=
  match a with
  | arg_function _ nothrow => nothrow
  | arg_function_pointer _ _ _ nothrow => nothrow
  | arg_functor _ T _ => is_nothrow_invocable T
  end.

Module function_ptr.

Record t := {
  m_target : addr;                      (* void*; nullptr when null *)
  m_invoke_target : option cpp_type;    (* the Callable of &function_ptr_invoke_target<Callable, ...> *)
}.

Definition ctor_default : t :=
  {| m_target := nullptr; m_invoke_target := None |}.

Definition ctor_nullptr : t :=
  {| m_target := nullptr; m_invoke_target := None |}.

Definition assign (NoExcept : bool) (a : argument) : option t :=
  if implb NoExcept (is_nothrow_invocable_r_v a) then
    if is_pointer_v (Callable a) then
      Some {| m_target := pointer_value a;
              m_invoke_target := Some (Callable a) |}
    else
      Some {| m_target := addressof a;
              m_invoke_target := Some (add_pointer_t (Callable a)) |}
  else None.

(** The converting constructor and assignment. *)
Definition ctor_callable (NoExcept : bool) (a : argument) : option t :=
  assign NoExcept a.

Definition assign_callable (NoExcept : bool) (this : t) (a : argument) : option t :=
  assign NoExcept a.

(** The defaulted copy and move members: the new value of the
    destination and the value the source is left with. *)
Definition ctor_copy (other : t) : t * t := (other, other).
Definition ctor_move (other : t) : t * t := (other, other).
Definition assign_copy (this other : t) : t * t := (other, other).
Definition assign_move (this other : t) : t * t := (other, other).

Definition assign_nullptr (this : t) : t :=
  {| m_target := nullptr; m_invoke_target := m_invoke_target this |}.

Definition operator_bool (this : t) : bool := bool_decide (m_target this ≠ nullptr).
Definition eq_nullptr (this : t) : bool := bool_decide (m_target this = nullptr).
Definition ne_nullptr (this : t) : bool := bool_decide (m_target this ≠ nullptr).

Definition swap (this other : t) : t * t :=
  ({| m_target := m_target other; m_invoke_target := m_invoke_target other |},
   {| m_target := m_target this; m_invoke_target := m_invoke_target this |}).

End function_ptr.

Module function_ref.

Record t := {
  m_invoke_target : cpp_type;   (* the Callable of &function_ref_invoke_target<Callable, ...> *)
  m_target : addr;
}.

(** The [enable_if] of the converting constructor; what it asks beyond
    invocability is [false == std::is_pointer_v<Callable>]. *)
Definition enabled (a : argument) : bool := negb (is_pointer_v (Callable a)).

Definition ctor_callable (NoExcept : bool) (a : argument) : option t :=
  if enabled a then
    if implb NoExcept (is_nothrow_invocable_r_v a) then
      Some {| m_invoke_target := add_pointer_t (Callable a);
              m_target := addressof a |}
    else None
  else None.

Definition ctor_copy (other : t) : t * t := (other, other).
Definition ctor_move (other : t) : t * t := (other, other).

End function_ref.

(** ** Calling through the non-owning wrappers *)

(** What lives at an address that a wrapper may point to: a function, with
    what it returns for an argument; an object of type pointer to function;
    a functor or closure object with its state. *)
Inductive pointee :=
  | a_function (body : Z → Z)
  | a_function_pointer (value : addr)
  | a_functor (T : callable_type) (state : Z).

Definition memory := gmap addr pointee.

Inductive invocation :=
  | Returns (r : Z) (mem : memory)
  | Aborts       (* a failed assert *)
  | Undefined.   (* undefined behaviour *)

(** The object at [p]; nothing lives at the null pointer. *)
Definition at_address (mem : memory) (p : addr) : option pointee :=
  if decide (p = nullptr) then None else mem !! p.

Section Calls.

Variable NDEBUG : bool.
(** The call operator of a functor: from its state and the argument, the
    new state and the result. *)
Variable invoke : callable_type → Z → Z → Z * Z.

(** [std::invoke(f, args...)], [f] being an lvalue of type [t] that lives
    at [at_]: a function, a pointer to function, or a functor. *)
Definition std_invoke (t : cpp_type) (at_ : addr) (x : Z) (mem : memory) : invocation :=
  match t with
  | t_function =>
      match at_address mem at_ with
      | Some (a_function body) => Returns (body x) mem
      | _ => Undefined
      end
  | t_pointer t_function =>
      match at_address mem at_ with
      | Some (a_function_pointer f) =>
          match at_address mem f with
          | Some (a_function body) => Returns (body x) mem
          | _ => Undefined
          end
      | _ => Undefined
      end
  | t_class T =>
      match at_address mem at_ with
      | Some (a_functor T' state) =>
          if decide (T' = T) then
            Returns (snd (invoke T state x))
                    (<[at_ := a_functor T (fst (invoke T state x))]> mem)
          else Undefined
      | _ => Undefined
      end
  | _ => Undefined
  end.

(** [detail::function_ptr_invoke_target<Callable, ...>]: [Callable] is a
    pointer type, and the target is invoked through it. *)
Definition function_ptr_invoke_target (C : cpp_type) (target : addr) (x : Z)
    (mem : memory) : invocation :=
  if NDEBUG || bool_decide (target ≠ nullptr) then
    match C with
    | t_pointer t => std_invoke t target x mem
    | _ => Undefined
    end
  else Aborts.

(** [detail::function_ref_invoke_target<Callable, ...>] *)
Definition function_ref_invoke_target (C : cpp_type) (target : addr) (x : Z)
    (mem : memory) : invocation :=
  if NDEBUG || bool_decide (target ≠ nullptr) then
    match C with
    | t_pointer t => std_invoke t target x mem
    | _ => Undefined
    end
  else Aborts.

(** [function_ptr::operator()]; a [function_ptr] that was never bound has
    no [m_invoke_target] to call. *)
Definition function_ptr_call (this : function_ptr.t) (x : Z) (mem : memory) : invocation :=
  if NDEBUG || bool_decide (function_ptr.m_target this ≠ nullptr) then
    match function_ptr.m_invoke_target this with
    | Some C => function_ptr_invoke_target C (function_ptr.m_target this) x mem
    | None => Undefined
    end
  else Aborts.

(** [function_ref::operator()] *)
Definition function_ref_call (this : function_ref.t) (x : Z) (mem : memory) : invocation :=
  function_ref_invoke_target (function_ref.m_invoke_target this)
    (function_ref.m_target this) x mem.

(** [std::invoke(callable, args...)] on the argument itself, without a
    wrapper. *)
Definition invoke_argument (a : argument) (x : Z) (mem : memory) : invocation :=
  match a with
  | arg_function f _ => std_invoke t_function f x mem
  | arg_function_pointer _ _ value _ => std_invoke t_function value x mem
  | arg_functor _ T at_ => std_invoke (t_class T) at_ x mem
  end.

(** The memory agrees with the argument: a named pointer variable holds the
    value that the argument gives for it. *)
Definition designates (mem : memory) (a : argument) : Prop :=
  match a with
  | arg_function_pointer lvalue at_ value _ =>
      at_address mem at_ = Some (a_function_pointer value)
  | _ => True
  end.

End Calls.

(** ** Example data: the closures of the tests *)

(** [[c = counter(&value)]() { ... }]: one pointer, nothrow movable. *)
Definition small_closure : callable_type :=
  {| type_name := 1; sizeof := 8;
     is_nothrow_move_constructible := true; is_nothrow_invocable := false |}.

(** [[c = counter(&value), values]() { ... }] with [int values[64]]. *)
Definition large_closure : callable_type :=
  {| type_name := 2; sizeof := 264;
     is_nothrow_move_constructible := true; is_nothrow_invocable := false |}.

(** The ints [a_value] and [b_value] of the tests. *)
Definition a_value : addr := 100.
Definition b_value : addr := 101.

(** [a_lambda] answers ['a'] and [b_lambda] answers ['b']. *)
Definition a_lambda : object :=
  {| o_type := small_closure; m_value := Some a_value; o_state := 97 |}.

Definition b_lambda : object :=
  {| o_type := large_closure; m_value := Some b_value; o_state := 98 |}.

(** A body that answers the captured state and leaves it alone. *)
Definition constant_body (T : callable_type) (state z : Z) : Z * Z :=
  (state, state).

(** A mutable body: answers the captured state plus the argument and counts
    the call. *)
Definition counting_body (T : callable_type) (state z : Z) : Z * Z :=
  ((state + 1)%Z, (state + z)%Z).

(** No container yet; both lambdas exist, so both counts are 1. *)
Definition world_start : world :=
  {| w_vtable := ∅; w_storage := ∅; w_temp := Indeterminate; w_heap := ∅;
     w_ints := {[ a_value := 1%Z; b_value := 1%Z ]} |}.

(** [std::move(lambda)] as the argument of a binding. *)
Definition moved_in (o : object) : callable_arg :=
  {| arg_object := o; arg_category := rvalue; arg_throws := false |}.

(** The lambda itself, an lvalue, as the argument of a binding. *)
Definition copied_in (o : object) : callable_arg :=
  {| arg_object := o; arg_category := lvalue; arg_throws := false |}.

(** [x] at 1 holds [a_lambda] in place and is the only container: the
    state after [move_only_function x(std::move(a_lambda))]. *)
Definition world_alone : world :=
  {| w_vtable := {[ 1 := Some (callable_vtable small_closure) ]};
     w_storage := {[ 1 := Inplace a_lambda ]};
     w_temp := Indeterminate;
     w_heap := ∅;
     w_ints := {[ a_value := 1%Z; b_value := 1%Z ]} |}.

(** [x] at 1 holds [a_lambda] in place, [y] at 2 is empty. *)
Definition world_small : world :=
  {| w_vtable := {[ 1 := Some (callable_vtable small_closure); 2 := Some null_vtable ]};
     w_storage := {[ 1 := Inplace a_lambda; 2 := Indeterminate ]};
     w_temp := Indeterminate;
     w_heap := ∅;
     w_ints := {[ a_value := 1%Z ]} |}.

(** [x] at 1 holds [b_lambda] through a pointer, [y] at 2 is empty. *)
Definition world_large : world :=
  {| w_vtable := {[ 1 := Some (callable_vtable large_closure); 2 := Some null_vtable ]};
     w_storage := {[ 1 := Allocated 50; 2 := Indeterminate ]};
     w_temp := Indeterminate;
     w_heap := {[ 50 := b_lambda ]};
     w_ints := {[ b_value := 1%Z ]} |}.

(** [x] at 1 holds [a_lambda] in place, [y] at 2 holds [b_lambda] through a
    pointer. *)
Definition world_both : world :=
  {| w_vtable := {[ 1 := Some (callable_vtable small_closure);
                    2 := Some (callable_vtable large_closure) ]};
     w_storage := {[ 1 := Inplace a_lambda; 2 := Allocated 50 ]};
     w_temp := Indeterminate;
     w_heap := {[ 50 := b_lambda ]};
     w_ints := {[ a_value := 1%Z; b_value := 1%Z ]} |}.

(** [x] at 1 and [y] at 2 both hold a copy of [a_lambda] in place; the one
    in [y] has been called once. *)
Definition world_twins : world :=
  {| w_vtable := {[ 1 := Some (callable_vtable small_closure);
                    2 := Some (callable_vtable small_closure) ]};
     w_storage := {[ 1 := Inplace a_lambda; 2 := Inplace (set_state a_lambda 98) ]};
     w_temp := Indeterminate;
     w_heap := ∅;
     w_ints := {[ a_value := 3%Z ]} |}.

(** [world_small] after [x = nullptr]. *)
Definition world_small_nulled : world :=
  {| w_vtable := {[ 1 := Some null_vtable; 2 := Some null_vtable ]};
     w_storage := {[ 1 := Indeterminate; 2 := Indeterminate ]};
     w_temp := Indeterminate;
     w_heap := ∅;
     w_ints := {[ a_value := 0%Z ]} |}.

(** [b_lambda] passed as an rvalue whose move constructor throws, and as one
    whose constructor does not. *)
Definition throwing_argument : callable_arg :=
  {| arg_object := b_lambda; arg_category := rvalue; arg_throws := true |}.

Definition plain_argument : callable_arg :=
  {| arg_object := b_lambda; arg_category := rvalue; arg_throws := false |}.

(** A pointer variable [fp] at 200 that holds [&invert_bool], the function
    being at 300: named as an lvalue, and passed as an rvalue. *)
Definition fp_lvalue : argument := arg_function_pointer lvalue 200 300 false.
Definition fp_rvalue : argument := arg_function_pointer rvalue 200 300 false.

(** The targets of the non-owning wrappers: the functions [inc] at 300 and
    [dec] at 301, the pointer variable [fp] at 200 that holds [&inc], and a
    functor of the type of [a_lambda] at 400. *)
Definition targets : memory :=
  {[ 200 := a_function_pointer 300;
     300 := a_function Z.succ;
     301 := a_function Z.pred;
     400 := a_functor small_closure 97 ]}.

(** ** The owning containers *)

Create HintDb tables.

Section Owning.

(** [sizeof(void* )] on the target. *)
Variable sizeof_pointer : nat.
(** Whether [assert] is compiled out. *)
Variable NDEBUG : bool.
(** The body of [Callable::operator()]: from the captured state and the
    argument to the new state and the result. *)
Variable invoke : callable_type -> Z -> Z -> Z * Z.
(** The template parameter [NoExcept] and the class template. *)
Variable NoExcept : bool.
Variable V : variant.

Definition assert (b : bool) : M unit :=
  if NDEBUG then ret tt else if b then ret tt else fail AssertFail.

(** [copyable_function_storage::capacity], [move_only_function_storage::capacity] *)
Definition capacity : nat := (sizeof_pointer * 2)%nat.

(** [copyable_function_storage::store_inplace<Callable>()] and its twin in
    [move_only_function_storage]. *)
Definition store_inplace (T : callable_type) : bool :=
  (sizeof T <=? capacity)%nat && is_nothrow_move_constructible T.

(** Which branch the operation table of [V] takes for [T]: the
    heap-fallback classes ask [store_inplace]; the in-place classes have
    no second branch. *)
Definition in_place (T : callable_type) : bool :=
  match V with
  | copyable_function | move_only_function => store_inplace T
  | inplace_copyable_function _ | inplace_move_only_function _ => true
  end.

Definition copyable : bool :=
  match V with
  | copyable_function | inplace_copyable_function _ => true
  | move_only_function | inplace_move_only_function _ => false
  end.

(** The [static_assert]s met when [V] is bound to a [T]: nothrow
    invocability for a [noexcept] signature; for the in-place classes the
    size bound, and nothrow move construction asked by their [m_move]. *)
Definition static_asserts (T : callable_type) : bool :=
  implb NoExcept (is_nothrow_invocable T) &&
  match V with
  | copyable_function | move_only_function => true
  | inplace_copyable_function C | inplace_move_only_function C =>
      (sizeof T <=? C)%nat && is_nothrow_move_constructible T
  end.

(** *** The operation table *)

Definition m_call (v : vtable_ref) (s : sref) (x : Z) : M Z :=
  match v with
  | null_vtable =>
      if NoExcept then fail Terminate else throw bad_function_call
  | callable_vtable T =>
      if in_place T then
        o ← as_inplace T s;
        store s (Inplace (set_state o (fst (invoke T (o_state o) x))));;
        ret (snd (invoke T (o_state o) x))
      else
        p ← as_allocated s;
        o ← deref T p;
        write_object p (set_state o (fst (invoke T (o_state o) x)));;
        ret (snd (invoke T (o_state o) x))
  end.

Definition m_dtor (v : vtable_ref) (s : sref) : M unit :=
  match v with
  | null_vtable => ret tt
  | callable_vtable T =>
      if in_place T then
        o ← as_inplace T s;
        destructor o;;
        store s Indeterminate
      else
        p ← as_allocated s;
        o ← deref T p;
        destructor o;;
        free p
  end.

(** [m_copy] is a member of the tables of the two copyable classes only. *)
Definition m_copy (v : vtable_ref) (dst src : sref) : M unit :=
  match V with
  | copyable_function =>
      match v with
      | null_vtable => ret tt
      | callable_vtable T =>
          if store_inplace T then
            (* new(&dst_storage.m_inplace) Callable{ reinterpret_cast<const Callable&>(src_storage.m_inplace) } *)
            o ← as_inplace T src;
            o' ← copy_constructor o;
            store dst (Inplace o')
          else
            (* dst_storage.m_allocated = new Callable{ reinterpret_cast<const Callable&>(src_storage.m_inplace) } *)
            o ← as_inplace T src;
            o' ← copy_constructor o;
            p ← new_object o';
            store dst (Allocated p)
      end
  | inplace_copyable_function _ =>
      match v with
      | null_vtable => ret tt
      | callable_vtable T =>
          (* new(dst_storage) Callable( *static_cast<const Callable*>(src_storage)) *)
          o ← as_inplace T src;
          o' ← copy_constructor o;
          store dst (Inplace o')
      end
  | move_only_function | inplace_move_only_function _ => fail IllFormed
  end.

Definition m_move (v : vtable_ref) (dst src : sref) : M unit :=
  match v with
  | null_vtable => ret tt
  | callable_vtable T =>
      if in_place T then
        o ← as_inplace T src;
        store dst (Inplace (fst (move_constructor o)));;
        store src (Inplace (snd (move_constructor o)));;
        husk ← as_inplace T src;
        destructor husk;;
        store src Indeterminate
      else
        p ← as_allocated src;
        store dst (Allocated p)
  end.

(** *** Constructors and destructor *)

Definition ctor_default (this : loc) : M unit :=
  begin_lifetime this (Some null_vtable).

Definition ctor_nullptr (this : loc) : M unit :=
  begin_lifetime this (Some null_vtable).

Definition ctor_copy (this other : loc) : M unit :=
  if copyable then
    constructor this (
      vt ← get_vtable other;
      begin_lifetime this (Some vt);;
      vt ← get_vtable this;
      m_copy vt (m_storage this) (m_storage other))
  else fail IllFormed.

Definition ctor_move (this other : loc) : M unit :=
  noexcept (
    vt ← exchange_vtable other null_vtable;
    begin_lifetime this (Some vt);;
    vt ← get_vtable this;
    m_move vt (m_storage this) (m_storage other)).

(** The [if constexpr] block shared by the converting constructor and the
    converting assignment. *)
Definition emplace (this : loc) (a : callable_arg) : M unit :=
  if in_place (o_type (arg_object a)) then
    o ← construct a;
    store (m_storage this) (Inplace o)
  else
    o ← construct a;
    p ← new_object o;
    store (m_storage this) (Allocated p).

Definition ctor_callable_body (this : loc) (a : callable_arg) : M unit :=
  begin_lifetime this None;;
  set_vtable this (callable_vtable (o_type (arg_object a)));;
  emplace this a.

Definition ctor_callable (this : loc) (a : callable_arg) : M unit :=
  if static_asserts (o_type (arg_object a)) then
    constructor this (ctor_callable_body this a)
  else fail IllFormed.

Definition dtor (this : loc) : M unit :=
  vt ← get_vtable this;
  m_dtor vt (m_storage this);;
  end_lifetime this.

(** *** Assignment *)

Definition assign_copy (this other : loc) : M unit :=
  if copyable then
    vt ← get_vtable this;
    m_dtor vt (m_storage this);;
    vt ← get_vtable this;
    m_copy vt (m_storage this) (m_storage other)
  else fail IllFormed.

Definition assign_move (this other : loc) : M unit :=
  noexcept (
    assert (bool_decide (this ≠ other));;
    vt ← get_vtable this;
    m_dtor vt (m_storage this);;
    old ← exchange_vtable other null_vtable;
    set_vtable this old;;
    vt ← get_vtable this;
    m_move vt (m_storage this) (m_storage other)).

Definition assign_callable_body (this : loc) (a : callable_arg) : M unit :=
  vt ← get_vtable this;
  m_dtor vt (m_storage this);;
  set_vtable this (callable_vtable (o_type (arg_object a)));;
  emplace this a.

Definition assign_callable (this : loc) (a : callable_arg) : M unit :=
  if static_asserts (o_type (arg_object a)) then
    noexcept (assign_callable_body this a)
  else fail IllFormed.

Definition assign_nullptr (this : loc) : M unit :=
  noexcept (
    vt ← get_vtable this;
    m_dtor vt (m_storage this);;
    set_vtable this null_vtable).

(** *** Observers, call and swap *)

(** [operator()] *)
Definition call (this : loc) (x : Z) : M Z :=
  (if NoExcept then noexcept else id) (
    vt ← get_vtable this;
    assert (bool_decide (vt ≠ null_vtable));;
    vt ← get_vtable this;
    m_call vt (m_storage this) x).

Definition operator_bool (this : loc) : M bool :=
  vt ← get_vtable this;
  ret (bool_decide (vt ≠ null_vtable)).

(** [operator==(std::nullptr_t)] *)
Definition eq_nullptr (this : loc) : M bool :=
  vt ← get_vtable this;
  ret (bool_decide (vt = null_vtable)).

(** [operator!=(std::nullptr_t)] *)
Definition ne_nullptr (this : loc) : M bool :=
  vt ← get_vtable this;
  ret (bool_decide (vt ≠ null_vtable)).

(** The local [temp] is declared without an initialiser and is gone when
    [swap] returns. *)
Definition swap (this other : loc) : M unit :=
  noexcept (
    store temp Indeterminate;;
    vt ← get_vtable this;
    m_move vt temp (m_storage this);;
    vo ← get_vtable other;
    m_move vo (m_storage this) (m_storage other);;
    vt ← get_vtable this;
    m_move vt (m_storage other) temp;;
    a ← get_vtable this;
    b ← get_vtable other;
    set_vtable this b;;
    set_vtable other a;;
    store temp Indeterminate).


(** *** Programs over the member functions *)

(** Moving a payload through a row of new containers:
    [T d1(std::move(c)); T d2(std::move(d1)); ...]. Returns the last owner. *)
Fixpoint move_chain (c : loc) (ds : list loc) : M loc :=
  match ds with
  | [] => ret c
  | d :: ds' => ctor_move d c;; move_chain d ds'
  end.

(** Every operation of the public interface, as one step of a client. *)
Inductive operation :=
  | op_ctor_default (this : loc)
  | op_ctor_nullptr (this : loc)
  | op_ctor_copy (this other : loc)
  | op_ctor_move (this other : loc)
  | op_ctor_callable (this : loc) (a : callable_arg)
  | op_dtor (this : loc)
  | op_assign_copy (this other : loc)
  | op_assign_move (this other : loc)
  | op_assign_callable (this : loc) (a : callable_arg)
  | op_assign_nullptr (this : loc)
  | op_call (this : loc) (x : Z)
  | op_operator_bool (this : loc)
  | op_swap (this other : loc).

Definition run (op : operation) : M unit :=
  match op with
  | op_ctor_default this => ctor_default this
  | op_ctor_nullptr this => ctor_nullptr this
  | op_ctor_copy this other => ctor_copy this other
  | op_ctor_move this other => ctor_move this other
  | op_ctor_callable this a => ctor_callable this a
  | op_dtor this => dtor this
  | op_assign_copy this other => assign_copy this other
  | op_assign_move this other => assign_move this other
  | op_assign_callable this a => assign_callable this a
  | op_assign_nullptr this => assign_nullptr this
  | op_call this x => call this x;; ret tt
  | op_operator_bool this => operator_bool this;; ret tt
  | op_swap this other => swap this other
  end.

(** *** Vocabulary of the statements *)

(** The container at [l] holds the payload [o]: its table is the one of
    [o]'s type and its storage holds [o], in place or through the pointer. *)
Definition holds (w : world) (l : loc) (o : object) : Prop :=
  w_vtable w !! l = Some (Some (callable_vtable (o_type o))) ∧
  if in_place (o_type o) then w_storage w !! l = Some (Inplace o)
  else ∃ p, w_storage w !! l = Some (Allocated p) ∧ w_heap w !! p = Some o.

(** The container at [l] is empty. *)
Definition vacant (w : world) (l : loc) : Prop :=
  w_vtable w !! l = Some (Some null_vtable) ∧ is_Some (w_storage w !! l).

Definition contains (w : world) (l : loc) (x : option object) : Prop :=
  match x with
  | Some o => holds w l o
  | None => vacant w l
  end.

(** No container lives at [l]. *)
Definition unused (w : world) (l : loc) : Prop :=
  w_vtable w !! l = None ∧ w_storage w !! l = None.

(** The object of the free store that the container at [l] owns. *)
Definition owned (w : world) (l : loc) : option addr :=
  match w_vtable w !! l, w_storage w !! l with
  | Some (Some (callable_vtable T)), Some (Allocated p) =>
      if in_place T then None else Some p
  | _, _ => None
  end.

(** The counts after one run of [o]'s destructor. *)
Definition release (o : object) (ints : gmap addr Z) : gmap addr Z :=
  match m_value o with
  | Some a => <[a := (default 0 (ints !! a) + -1)%Z]> ints
  | None => ints
  end.

Definition released (x : option object) (ints : gmap addr Z) : gmap addr Z :=
  match x with
  | Some o => release o ints
  | None => ints
  end.

(** The free store after the container at [l] gave up what it owns. *)
Definition heap_after_destroy (w : world) (l : loc) : gmap addr object :=
  match owned w l with
  | Some p => delete p (w_heap w)
  | None => w_heap w
  end.

(** The counts after [a] was bound: copying from an lvalue counts one more. *)
Definition acquired (a : callable_arg) (ints : gmap addr Z) : gmap addr Z :=
  match arg_category a, m_value (arg_object a) with
  | lvalue, Some n => <[n := (default 0 (ints !! n) + 1)%Z]> ints
  | _, _ => ints
  end.

(** What a call answers, when it returns. *)
Definition returned {A} (r : outcome A) : option A :=
  match r with
  | Ok a _ => Some a
  | _ => None
  end.

Definition answer (x : option object) (z : Z) : option Z :=
  match x with
  | Some o => Some (snd (invoke (o_type o) (o_state o) z))
  | None => None
  end.

(** No [m_vtable] member is the null pointer. *)
Definition never_null (w : world) : Prop :=
  map_Forall (λ _ v, v ≠ None) (w_vtable w).

#[global] Instance never_null_dec w : Decision (never_null w).
Proof. unfold never_null. apply _. Defined.

(** How one location's table pointer may differ between two states. *)
Definition table_step (w w' : world) : Prop :=
  ∀ l, w_vtable w' !! l = w_vtable w !! l
       ∨ (∃ v, w_vtable w' !! l = Some (Some v))
       ∨ w_vtable w' !! l = None.

Definition steps_tables {A} (m : M A) : Prop :=
  ∀ w a w', m w = Ok a w' → table_step w w'.

(** Nothing outside the named containers changed. *)
Definition frame (w w' : world) (a b : loc) : Prop :=
  ∀ l, l ≠ a → l ≠ b →
    w_vtable w' !! l = w_vtable w !! l ∧ w_storage w' !! l = w_storage w !! l.

Definition frame_list (w w' : world) (ls : list loc) : Prop :=
  ∀ l, l ∉ ls →
    w_vtable w' !! l = w_vtable w !! l ∧ w_storage w' !! l = w_storage w !! l.

(** Two containers do not own the same object of the free store. *)
Definition separate (w : world) (c d : loc) : Prop :=
  owned w c = None ∨ owned w c ≠ owned w d.

(** What a move from [c] to [d] establishes, [o] being the payload that
    [c] held in [w]: the source's table pointer is the empty table and it
    tests null, the destination holds [o] and tests non-null, and a call of
    the destination answers what a call of the source answered before. *)
Definition moved (w w' : world) (c d : loc) (o : object) : Prop :=
  w_vtable w' !! c = Some (Some null_vtable)
  ∧ operator_bool c w' = Ok false w'
  ∧ eq_nullptr c w' = Ok true w'
  ∧ holds w' d o
  ∧ operator_bool d w' = Ok true w'
  ∧ ∀ z, returned (call d z w') = returned (call c z w)
         ∧ returned (call d z w') = Some (snd (invoke (o_type o) (o_state o) z)).

(** The counts after [o] was copied once. *)
Definition duplicate (o : object) (ints : gmap addr Z) : gmap addr Z :=
  match m_value o with
  | Some a => <[a := (default 0 (ints !! a) + 1)%Z]> ints
  | None => ints
  end.

(** One call after the other, [x(z1); x(z2); ...], with the answers. *)
Fixpoint calls (this : loc) (zs : list Z) : M (list Z) :=
  match zs with
  | [] => mret []
  | z :: zs' => r ← call this z; rs ← calls this zs'; mret (r :: rs)
  end.

(** What an object of type [T] with state [st] answers to the same row of
    arguments when invoked directly, and the state it ends in. *)
Fixpoint answers (T : callable_type) (st : Z) (zs : list Z) : list Z * Z :=
  match zs with
  | [] => ([], st)
  | z :: zs' =>
      (snd (invoke T st z) :: fst (answers T (fst (invoke T st z)) zs'),
       snd (answers T (fst (invoke T st z)) zs'))
  end.

(** The containers an operation names. *)
Definition operands (op : operation) : list loc :=
  match op with
  | op_ctor_default this | op_ctor_nullptr this | op_ctor_callable this _
  | op_dtor this | op_assign_callable this _ | op_assign_nullptr this
  | op_call this _ | op_operator_bool this => [this]
  | op_ctor_copy this other | op_ctor_move this other
  | op_assign_copy this other | op_assign_move this other
  | op_swap this other => [this; other]
  end.

(** The two classes with a capacity of their own and no heap fallback. *)
Definition fixed_capacity : bool :=
  match V with
  | inplace_copyable_function _ | inplace_move_only_function _ => true
  | copyable_function | move_only_function => false
  end.

(** Every container is empty or holds a payload, and no two containers own
    the same object of the free store. *)
Definition well_formed (w : world) : Prop :=
  (∀ l v, w_vtable w !! l = Some v → ∃ x, contains w l x)
  ∧ (∀ l1 l2 p, owned w l1 = Some p → owned w l2 = Some p → l1 = l2).

(** What a step on the containers [ls] may do to a well-formed state. *)
Definition local_step (ls : list loc) (w w' : world) : Prop :=
  frame_list w w' ls
  ∧ (∀ l v, l ∈ ls → w_vtable w' !! l = Some v → ∃ x, contains w' l x)
  ∧ (∀ p, w_heap w' !! p = w_heap w !! p ∨ w_heap w !! p = None
          ∨ ∃ l0, l0 ∈ ls ∧ owned w l0 = Some p)
  ∧ (∀ l p, l ∈ ls → owned w' l = Some p →
       w_heap w !! p = None ∨ ∃ l0, l0 ∈ ls ∧ owned w l0 = Some p)
  ∧ (∀ l1 l2 p, l1 ∈ ls → l2 ∈ ls →
       owned w' l1 = Some p → owned w' l2 = Some p → l1 = l2).

(** A client's whole program: one operation after the other. *)
Fixpoint run_all (ops : list operation) : M unit :=
  match ops with
  | [] => mret tt
  | op :: ops' => run op;; run_all ops'
  end.

(** [x(lambda); y(std::move(x)); x = nullptr; swap(x, y); x(5); y = std::move(x);
    ~x; ~y] with the heap-stored lambda, [x] at 1 and [y] at 2. *)
Definition client_program : list operation :=
  [ op_ctor_callable 1 (copied_in b_lambda);
    op_ctor_move 2 1;
    op_assign_nullptr 1;
    op_swap 1 2;
    op_call 1 5;
    op_assign_move 2 1;
    op_dtor 1;
    op_dtor 2 ].

(** Every object of the free store is owned by a container. *)
Definition no_leak (w : world) : Prop :=
  ∀ p, is_Some (w_heap w !! p) → ∃ l, owned w l = Some p.

(** A step on [ls] leaves no object behind: what is new in the free store,
    and what the operands owned and is still there, has an owner among the
    operands. *)
Definition hands_over (ls : list loc) (w w' : world) : Prop :=
  ∀ p, is_Some (w_heap w' !! p) →
    w_heap w !! p = None ∨ (∃ l0, l0 ∈ ls ∧ owned w l0 = Some p) →
    ∃ l, l ∈ ls ∧ owned w' l = Some p.

(** The containers a constructor brings to life. *)
Definition constructed (op : operation) : list loc :=
  match op with
  | op_ctor_default this | op_ctor_nullptr this | op_ctor_callable this _
  | op_ctor_copy this _ | op_ctor_move this _ => [this]
  | _ => []
  end.

(** A program whose operations each name distinct containers and construct
    only where no container lives. *)
Fixpoint proper (ops : list operation) (w : world) : bool :=
  match ops with
  | [] => true
  | op :: ops' =>
      bool_decide (NoDup (operands op))
      && forallb (λ l, bool_decide (w_vtable w !! l = None)) (constructed op)
      && match run op w with
         | Ok _ w1 => proper ops' w1
         | _ => true
         end
  end.




(** *** Symbolic execution *)

(** Member functions are run on a world whose lookups are known from the
    hypotheses: unfold the program, then rewrite each lookup and branch
    condition as it comes to the head. *)
Ltac unfold_model :=
  unfold swap, ctor_move, ctor_copy, ctor_default, ctor_nullptr, ctor_callable,
    ctor_callable_body, dtor, assign_copy, assign_move, assign_callable,
    assign_callable_body, assign_nullptr, call, operator_bool, eq_nullptr,
    ne_nullptr, emplace, construct, constructor, noexcept, assert,
    m_call, m_dtor, m_copy, m_move,
    exchange_vtable, as_inplace, as_allocated, destructor, copy_constructor,
    move_constructor, add_count, count, deref, free, write_object, new_object,
    begin_lifetime, end_lifetime, load, store, get_vtable, set_vtable,
    mbind, M_bind, mret, M_ret, bind, ret, fail, throw in *.

Ltac exec1 :=
  match goal with
  | H : ?m !! ?k = _ |- context [?m !! ?k] => rewrite H
  | |- context [<[?k := _]> _ !! ?k] => rewrite lookup_insert_eq
  | |- context [<[?k := _]> _ !! ?k'] => rewrite lookup_insert_ne by congruence
  | |- context [delete ?k _ !! ?k] => rewrite lookup_delete_eq
  | |- context [delete ?k _ !! ?k'] => rewrite lookup_delete_ne by congruence
  | |- context [decide (?a = ?a)] => rewrite (decide_True (P := a = a)) by reflexivity
  | H : ?a = ?b |- context [decide (?a = ?b)] => rewrite (decide_True (P := a = b)) by exact H
  | H : ?a ≠ ?b |- context [decide (?a = ?b)] => rewrite (decide_False (P := a = b)) by exact H
  | H : ?b = _ |- context [if ?b then _ else _] => rewrite H
  | H : V = _ |- context [match V with _ => _ end] => rewrite H
  | |- context [match m_value ?o with _ => _ end] => destruct (m_value o) eqn:?
  | |- context [match arg_category ?a with _ => _ end] => destruct (arg_category a) eqn:?
  end.

Ltac exec := unfold_model; simpl in *; repeat (exec1; simpl).

Ltac open_world w := destruct w as [vt st tmp hp ints]; simpl in *.

(** The cases of [contains]: empty, a payload in place, a payload behind
    the pointer. *)
Ltac open_contains H :=
  match type of H with
  | contains _ _ ?x =>
      let Hv := fresh "Hv" in
      let Hs := fresh "Hs" in
      let Hp := fresh "Hp" in
      let p := fresh "p" in
      destruct x as [?o|]; simpl in H;
      [ destruct H as [Hv Hs];
        match type of Hs with
        | context [in_place ?T] =>
            destruct (in_place T) eqn:?Hin; [| destruct Hs as (p & Hs & Hp)]
        end
      | destruct H as [Hv [? Hs]] ]
  end.

Ltac unfold_spec :=
  unfold contains, holds, vacant, unused, heap_after_destroy, owned,
    released, release, acquired, duplicate in *.

Ltac finish :=
  repeat first [ done | reflexivity | eexists | split | progress simpl
               | exec1 | progress simplify_eq ].

(** *** The operations one by one *)

Lemma operator_bool_holds w l o :
  holds w l o → operator_bool l w = Ok true w ∧ eq_nullptr l w = Ok false w.
Proof. intros [Hv _]. open_world w. by exec. Qed.

Lemma operator_bool_empty w l :
  vacant w l → operator_bool l w = Ok false w ∧ eq_nullptr l w = Ok true w.
Proof. intros [Hv _]. open_world w. by exec. Qed.

Lemma call_holds w l o z :
  holds w l o →
  ∃ w', call l z w = Ok (snd (invoke (o_type o) (o_state o) z)) w'
        ∧ holds w' l (set_state o (fst (invoke (o_type o) (o_state o) z)))
        ∧ w_ints w' = w_ints w.
Proof.
  intros [Hv Hs]. open_world w. unfold holds.
  destruct (in_place (o_type o)) eqn:Hin.
  - destruct NoExcept eqn:HN, NDEBUG eqn:HD; exec; finish.
  - destruct Hs as (p & Hs & Hp).
    destruct NoExcept eqn:HN, NDEBUG eqn:HD; exec; finish.
Qed.

Lemma call_empty w l z :
  vacant w l →
  call l z w =
    if NDEBUG then if NoExcept then Terminate else Throw bad_function_call w
    else AssertFail.
Proof. intros [Hv _]. open_world w. destruct NoExcept eqn:HN, NDEBUG eqn:HD; by exec. Qed.

Lemma call_contains w l x z :
  contains w l x → returned (call l z w) = answer x z.
Proof.
  destruct x as [o|]; simpl; intros H.
  - destruct (call_holds w l o z H) as (w' & -> & _). done.
  - rewrite (call_empty w l z H). by destruct NDEBUG eqn:HD, NoExcept eqn:HN.
Qed.

Lemma assign_nullptr_contains w l x :
  contains w l x →
  ∃ w', assign_nullptr l w = Ok tt w' ∧ vacant w' l
        ∧ w_ints w' = released x (w_ints w)
        ∧ w_heap w' = heap_after_destroy w l
        ∧ frame w w' l l.
Proof.
  intros H. open_world w. open_contains H; unfold_spec; unfold frame; exec; finish.
Qed.

Lemma dtor_contains w l x :
  contains w l x →
  ∃ w', dtor l w = Ok tt w' ∧ unused w' l
        ∧ w_ints w' = released x (w_ints w)
        ∧ w_heap w' = heap_after_destroy w l
        ∧ frame w w' l l.
Proof.
  intros H. open_world w. open_contains H; unfold_spec; unfold frame; exec; finish.
Qed.

Lemma ctor_move_contains w c d x :
  c ≠ d → contains w c x →
  ∃ w', ctor_move d c w = Ok tt w' ∧ vacant w' c ∧ contains w' d x
        ∧ w_ints w' = w_ints w ∧ w_heap w' = w_heap w
        ∧ frame w w' c d.
Proof.
  intros Hne H. open_world w. open_contains H; unfold_spec; unfold frame; exec; finish.
Qed.

Lemma assign_move_contains w c d x y :
  c ≠ d → contains w c x → contains w d y → separate w c d →
  ∃ w', assign_move d c w = Ok tt w' ∧ vacant w' c ∧ contains w' d x
        ∧ w_ints w' = released y (w_ints w)
        ∧ w_heap w' = heap_after_destroy w d
        ∧ frame w w' c d.
Proof.
  intros Hne Hc Hd Hsep. open_world w.
  assert (Hb : bool_decide (d ≠ c) = true) by (apply bool_decide_eq_true; congruence).
  revert Hsep. unfold separate.
  open_contains Hc; open_contains Hd; unfold_spec; unfold frame; exec;
    intros Hsep;
    try (assert (p0 ≠ p) by (destruct Hsep; congruence));
    destruct NDEBUG eqn:HD; exec; finish.
Qed.

Lemma swap_contains w a b x y :
  a ≠ b → contains w a x → contains w b y →
  ∃ w', swap a b w = Ok tt w' ∧ contains w' a y ∧ contains w' b x
        ∧ w_ints w' = w_ints w ∧ w_heap w' = w_heap w
        ∧ w_vtable w' !! a = w_vtable w !! b
        ∧ w_vtable w' !! b = w_vtable w !! a
        ∧ frame w w' a b.
Proof.
  intros Hne Ha Hb. open_world w.
  open_contains Ha; open_contains Hb; unfold_spec; unfold frame; exec; finish.
Qed.

Lemma ctor_callable_returns w this a :
  static_asserts (o_type (arg_object a)) = true → arg_throws a = false →
  ∃ w', ctor_callable this a w = Ok tt w' ∧ holds w' this (arg_object a)
        ∧ w_ints w' = acquired a (w_ints w)
        ∧ frame w w' this this.
Proof.
  intros Hsa Hth. open_world w. unfold_spec; unfold frame.
  destruct (in_place (o_type (arg_object a))) eqn:Hin; exec; finish.
Qed.

Lemma assign_callable_returns w this a y :
  static_asserts (o_type (arg_object a)) = true → arg_throws a = false →
  contains w this y →
  ∃ w', assign_callable this a w = Ok tt w' ∧ holds w' this (arg_object a)
        ∧ w_ints w' = acquired a (released y (w_ints w))
        ∧ frame w w' this this.
Proof.
  intros Hsa Hth H. open_world w.
  destruct (in_place (o_type (arg_object a))) eqn:Hin';
    open_contains H; unfold_spec; unfold frame; exec; finish.
Qed.

(** *** A payload moved through a row of containers *)

Lemma empty_frame_list w w' ls l :
  frame_list w w' ls → l ∉ ls → vacant w l → vacant w' l.
Proof. intros Hf ? [? ?]. destruct (Hf l) as [Hv Hs]; [done|]. split; congruence. Qed.

Lemma move_chain_contains ds : ∀ w c x,
  NoDup (c :: ds) → contains w c x →
  ∃ w', move_chain c ds w = Ok (default c (last ds)) w'
        ∧ contains w' (default c (last ds)) x
        ∧ (∀ l, l ∈ c :: ds → l ≠ default c (last ds) → vacant w' l)
        ∧ w_ints w' = w_ints w ∧ w_heap w' = w_heap w
        ∧ frame_list w w' (c :: ds).
Proof.
  induction ds as [|d ds IH]; intros w c x Hnd Hc; simpl.
  - exists w. split; [done|]. split; [done|]. split.
    { intros l Hl Hne. apply list_elem_of_singleton in Hl. done. }
    split; [done|]. split; [done|]. by intros l Hl.
  - apply NoDup_cons in Hnd as [Hcd Hnd].
    assert (c ≠ d) by (intros ->; apply Hcd; left).
    destruct (ctor_move_contains w c d x) as (w1 & E1 & Hc1 & Hd1 & Hi1 & Hh1 & Hf1);
      [done..|].
    destruct (IH w1 d x Hnd Hd1) as (w2 & E2 & Hx2 & He2 & Hi2 & Hh2 & Hf2).
    assert (Hlast : default c (last (d :: ds)) = default d (last ds)).
    { destruct ds as [|d' ds']; [done|]. simpl.
      destruct (last (d' :: ds')) eqn:E; [done|]. by apply last_None in E. }
    exists w2. rewrite Hlast.
    split. { unfold mbind, M_bind, bind. by rewrite E1. }
    split; [done|].
    split.
    { intros l Hl Hne. apply elem_of_cons in Hl as [->|Hl].
      - eapply empty_frame_list; [exact Hf2|done|done].
      - by apply He2. }
    split; [congruence|]. split; [congruence|].
    intros l Hl. destruct (Hf2 l) as [? ?].
    { intros Hin. apply Hl. by right. }
    destruct (Hf1 l) as [? ?].
    { intros ->. apply Hl. left. }
    { intros ->. apply Hl. right. left. }
    split; congruence.
Qed.

(** *** The table pointer across operations *)

Lemma table_step_refl w : table_step w w.
Proof. intros l. by left. Qed.

Lemma table_step_trans w1 w2 w3 :
  table_step w1 w2 → table_step w2 w3 → table_step w1 w3.
Proof.
  intros H12 H23 l. destruct (H23 l) as [E|[E|E]].
  - rewrite E. apply H12.
  - by right; left.
  - by right; right.
Qed.

Lemma never_null_step w w' : never_null w → table_step w w' → never_null w'.
Proof.
  intros Hn Hs l v Hl. destruct (Hs l) as [E|[[v' E]|E]].
  - rewrite E in Hl. by eapply Hn.
  - rewrite E in Hl. by simplify_eq.
  - rewrite E in Hl. done.
Qed.

Lemma st_ret {A} (a : A) : steps_tables (mret a).
Proof. intros w a' w' [= _ <-]. apply table_step_refl. Qed.

Lemma st_bind {A B} (m : M A) (k : A → M B) :
  steps_tables m → (∀ a, steps_tables (k a)) → steps_tables (m ≫= k).
Proof.
  intros Hm Hk w b w'. unfold mbind, M_bind, bind.
  destruct (m w) as [a w1| | | | |] eqn:E; try done.
  intros E'. eapply table_step_trans; [by eapply Hm | by eapply Hk].
Qed.

Lemma st_fail {A} (r : outcome A) : returned r = None → steps_tables (fail r).
Proof. intros Hr w a w'. unfold fail. intros ->. done. Qed.

Lemma st_throw {A} e : steps_tables (@throw A e).
Proof. by intros w a w'. Qed.

Lemma st_noexcept {A} (m : M A) : steps_tables m → steps_tables (noexcept m).
Proof.
  intros Hm w a w'. unfold noexcept.
  destruct (m w) eqn:E; try done. intros [= <- <-]. by eapply Hm.
Qed.

Lemma st_constructor this m : steps_tables m → steps_tables (constructor this m).
Proof.
  intros Hm w a w'. unfold constructor.
  destruct (m w) eqn:E; try done. intros [= <- <-]. by eapply Hm.
Qed.

Lemma st_same {A} (m : M A) :
  (∀ w a w', m w = Ok a w' → w_vtable w' = w_vtable w) → steps_tables m.
Proof. intros H w a w' E l. left. by rewrite (H w a w' E). Qed.

Lemma st_get_vtable l : steps_tables (get_vtable l).
Proof. apply st_same. intros w a w'. unfold get_vtable. by repeat case_match; intros ?; simplify_eq. Qed.

Lemma st_set_vtable l v : steps_tables (set_vtable l v).
Proof.
  intros w a w'. unfold set_vtable. case_match; [|done]. intros ? l'; simplify_eq; simpl.
  destruct (decide (l = l')) as [->|Hne].
  - right; left. eexists. apply lookup_insert_eq.
  - left. by apply lookup_insert_ne.
Qed.

Lemma st_load s : steps_tables (load s).
Proof. apply st_same. intros w a w'. unfold load. by repeat case_match; intros ?; simplify_eq. Qed.

Lemma st_store s x : steps_tables (store s x).
Proof. apply st_same. intros w a w'. unfold store. by repeat case_match; intros ?; simplify_eq. Qed.

Lemma st_begin_lifetime l v : steps_tables (begin_lifetime l (Some v)).
Proof.
  intros w a w'. unfold begin_lifetime. intros ? l'; simplify_eq; simpl.
  destruct (decide (l = l')) as [->|Hne].
  - right; left. eexists. apply lookup_insert_eq.
  - left. by apply lookup_insert_ne.
Qed.

Lemma st_end_lifetime l : steps_tables (end_lifetime l).
Proof.
  intros w a w'. unfold end_lifetime. intros ? l'; simplify_eq; simpl.
  destruct (decide (l = l')) as [->|Hne].
  - right; right. apply lookup_delete_eq.
  - left. by apply lookup_delete_ne.
Qed.

Lemma st_new_object o : steps_tables (new_object o).
Proof. apply st_same. intros w a w'. unfold new_object. by intros ?; simplify_eq. Qed.

Lemma st_deref T p : steps_tables (deref T p).
Proof. apply st_same. intros w a w'. unfold deref. by repeat case_match; intros ?; simplify_eq. Qed.

Lemma st_write_object p o : steps_tables (write_object p o).
Proof. apply st_same. intros w a w'. unfold write_object. by intros ?; simplify_eq. Qed.

Lemma st_free p : steps_tables (free p).
Proof. apply st_same. intros w a w'. unfold free. by repeat case_match; intros ?; simplify_eq. Qed.

Lemma st_add_count a d : steps_tables (add_count a d).
Proof. apply st_same. intros w a' w'. unfold add_count. by intros ?; simplify_eq. Qed.

Lemma st_assert b : steps_tables (assert b).
Proof.
  unfold assert. repeat case_match; try apply (st_ret tt). by apply st_fail.
Qed.

#[local] Hint Resolve st_ret st_throw st_get_vtable st_set_vtable st_load st_store
  st_begin_lifetime st_end_lifetime st_new_object st_deref st_write_object
  st_free st_add_count st_assert : tables.

Ltac tables :=
  repeat first
    [ solve [auto with tables]
    | apply st_bind; [|intros]
    | apply st_noexcept
    | apply st_constructor
    | apply st_fail; reflexivity
    | match goal with
      | |- steps_tables (if ?b then _ else _) => destruct b
      | |- steps_tables ((if ?b then _ else _) _) => destruct b
      | |- steps_tables (match ?x with _ => _ end) => destruct x
      end ].

Lemma st_m_call v s x : steps_tables (m_call v s x).
Proof. unfold m_call, as_inplace, as_allocated. tables. Qed.

Lemma st_m_dtor v s : steps_tables (m_dtor v s).
Proof. unfold m_dtor, as_inplace, as_allocated, destructor. tables. Qed.

Lemma st_m_copy v dst src : steps_tables (m_copy v dst src).
Proof. unfold m_copy, as_inplace, as_allocated, copy_constructor. tables. Qed.

Lemma st_m_move v dst src : steps_tables (m_move v dst src).
Proof. unfold m_move, as_inplace, as_allocated, destructor. tables. Qed.

#[local] Hint Resolve st_m_call st_m_dtor st_m_copy st_m_move : tables.

Lemma st_emplace this a : steps_tables (emplace this a).
Proof. unfold emplace, construct, copy_constructor. tables. Qed.

(** The converting constructor starts with [m_vtable] not yet set; its
    first statement sets it. *)
Lemma st_ctor_callable_body this a : steps_tables (ctor_callable_body this a).
Proof.
  intros w r w'. unfold ctor_callable_body, begin_lifetime, set_vtable.
  unfold mbind at 1 2, M_bind, bind. simpl. rewrite lookup_insert_eq.
  intros E. eapply table_step_trans; [|by eapply st_emplace].
  intros l. simpl. destruct (decide (this = l)) as [->|Hne].
  - right; left. eexists. apply lookup_insert_eq.
  - left. by rewrite !lookup_insert_ne.
Qed.

#[local] Hint Resolve st_emplace st_ctor_callable_body : tables.

Lemma st_run op : steps_tables (run op).
Proof.
  destruct op; simpl;
    unfold ctor_default, ctor_nullptr, ctor_copy, ctor_move, ctor_callable, dtor,
      assign_copy, assign_move, assign_callable, assign_callable_body,
      assign_nullptr, call, operator_bool, swap, exchange_vtable, id;
    tables.
Qed.

Lemma fresh_address (hp : gmap addr object) :
  fresh ({[nullptr]} ∪ dom hp) ≠ nullptr
  ∧ hp !! fresh ({[nullptr]} ∪ dom hp) = None.
Proof.
  pose proof (is_fresh ({[nullptr]} ∪ dom hp)) as Hf. split.
  - set_solver.
  - apply not_elem_of_dom. set_solver.
Qed.

(** ** The claims about the owning containers *)

(** C1 (the defect behind it). Copy assignment runs the destination's own
    [m_dtor] and the destination's own [m_copy] and never stores the
    source's table pointer: assigned from a container that holds a payload,
    an empty container is left exactly as it was, still testing null while
    the source tests non-null, and the two table pointers differ. *)
Theorem assign_copy_keeps_own_table w b a o :
  copyable = true → vacant w b → holds w a o →
  assign_copy b a w = Ok tt w
  ∧ operator_bool b w = Ok false w
  ∧ operator_bool a w = Ok true w
  ∧ w_vtable w !! b ≠ w_vtable w !! a.
Proof.
  intros Hc [Hvb [sb Hsb]] [Hva Hsa]. open_world w.
  split; [|split; [|split]].
  - unfold assign_copy. rewrite Hc. unfold copyable in Hc.
    destruct V eqn:HV; try done; exec; finish.
  - by exec.
  - by exec.
  - rewrite Hvb, Hva. congruence.
Qed.

(** C2 (the defect behind it). In [copyable_function] the copy operation of
    a heap-stored type builds the new object from
    [reinterpret_cast<const Callable&>(src_storage.m_inplace)]: it reads the
    source's buffer, which holds the pointer [m_allocated] and no [Callable],
    and never the object the pointer leads to. Copy construction from a
    container that holds a heap-stored payload is undefined. *)
Theorem copy_of_heap_stored_reads_buffer w b a o dst :
  V = copyable_function → holds w a o → store_inplace (o_type o) = false →
  m_copy (callable_vtable (o_type o)) dst (m_storage a) w = UB
  ∧ ctor_copy b a w = UB.
Proof.
  intros HV [Hva Hsa] Hsi. open_world w.
  assert (Hin : in_place (o_type o) = false) by (unfold in_place; by rewrite HV).
  rewrite Hin in Hsa. destruct Hsa as (p & Hsa & Hp).
  split.
  - exec; finish.
  - unfold ctor_copy, copyable. rewrite HV.
    destruct (decide (b = a)) as [->|Hne]; exec; finish.
Qed.

(** C6 (amended). The empty table's call operation terminates for a
    [noexcept] signature and throws [std::bad_function_call] otherwise; its
    destroy, move and (in the copyable classes) copy operations do nothing.
    Invoking an empty container reaches that call operation when [assert]
    is compiled out; otherwise the assertion of [operator()] fails first. *)
Theorem empty_table_operations w l s d z :
  vacant w l →
  m_call null_vtable s z w = (if NoExcept then Terminate else Throw bad_function_call w)
  ∧ m_dtor null_vtable s w = Ok tt w
  ∧ m_move null_vtable d s w = Ok tt w
  ∧ (if copyable then m_copy null_vtable d s w = Ok tt w
     else m_copy null_vtable d s w = IllFormed)
  ∧ call l z w =
      if NDEBUG then if NoExcept then Terminate else Throw bad_function_call w
      else AssertFail.
Proof.
  intros He. split; [|split; [|split; [|split]]].
  - unfold m_call. by destruct NoExcept.
  - done.
  - done.
  - unfold copyable, m_copy. by destruct V.
  - by apply call_empty.
Qed.

(** C7. In the heap-fallback classes a type is stored in place exactly when
    its size is at most [capacity], two pointers, and it is nothrow move
    constructible. Binding such a type makes no allocation; binding any
    other type makes exactly one, at an address not in use before, and
    stores the pointer. The move operation of a heap-stored type is the
    store of that pointer into the destination and nothing else. *)
Theorem heap_fallback_storage_policy w this a dst src p :
  V = copyable_function ∨ V = move_only_function →
  static_asserts (o_type (arg_object a)) = true → arg_throws a = false →
  (store_inplace (o_type (arg_object a)) = true
     ↔ (sizeof (o_type (arg_object a)) ≤ capacity)%nat
       ∧ is_nothrow_move_constructible (o_type (arg_object a)) = true)
  ∧ capacity = (2 * sizeof_pointer)%nat
  ∧ in_place (o_type (arg_object a)) = store_inplace (o_type (arg_object a))
  ∧ (∃ w', ctor_callable this a w = Ok tt w'
       ∧ if store_inplace (o_type (arg_object a))
         then w_storage w' !! this = Some (Inplace (arg_object a))
              ∧ w_heap w' = w_heap w
         else ∃ q, q ≠ nullptr ∧ w_heap w !! q = None
              ∧ w_storage w' !! this = Some (Allocated q)
              ∧ w_heap w' = <[q := arg_object a]> (w_heap w))
  ∧ (store_inplace (o_type (arg_object a)) = false →
     as_allocated src w = Ok p w →
     m_move (callable_vtable (o_type (arg_object a))) dst src w
     = store dst (Allocated p) w).
Proof.
  intros HV Hsa Hth.
  assert (Hin : in_place (o_type (arg_object a)) = store_inplace (o_type (arg_object a))).
  { unfold in_place. by destruct HV as [-> | ->]. }
  split; [|split; [|split; [done|split]]].
  - unfold store_inplace. rewrite andb_true_iff, Nat.leb_le. done.
  - unfold capacity. lia.
  - open_world w. unfold ctor_callable. rewrite Hsa.
    unfold ctor_callable_body, emplace. rewrite Hin.
    destruct (store_inplace (o_type (arg_object a))) eqn:Hsi; exec;
      (eexists; split; [reflexivity|]); simpl; exec; try done;
      destruct (fresh_address hp) as [? ?]; by eexists.
  - intros Hsi Hp. rewrite Hsi in Hin. unfold m_move. rewrite Hin.
    unfold mbind, M_bind, bind. by rewrite Hp.
Qed.

(** C10. Assigning [nullptr] to a container that holds a payload runs the
    payload's destructor once (its count goes down by exactly one, and a
    heap-stored payload is deleted), leaves the container equal to
    [nullptr], and the container's own destructor then leaves counts and
    free store as they are. *)
Theorem null_assignment_destroys_once w l o :
  holds w l o →
  ∃ w1 w2,
    assign_nullptr l w = Ok tt w1
    ∧ w_ints w1 = release o (w_ints w)
    ∧ (∀ n, m_value o = Some n → count w1 n = (count w n - 1)%Z)
    ∧ w_heap w1 = heap_after_destroy w l
    ∧ eq_nullptr l w1 = Ok true w1
    ∧ operator_bool l w1 = Ok false w1
    ∧ dtor l w1 = Ok tt w2
    ∧ w_ints w2 = w_ints w1
    ∧ w_heap w2 = w_heap w1.
Proof.
  intros H.
  destruct (assign_nullptr_contains w l (Some o) H) as (w1 & E1 & He1 & Hi1 & Hh1 & _).
  destruct (dtor_contains w1 l None He1) as (w2 & E2 & _ & Hi2 & Hh2 & _).
  destruct (operator_bool_empty w1 l He1) as [Hb Hn].
  exists w1, w2. split_and!; try done.
  - intros n Hn'. unfold count. rewrite Hi1. simpl. unfold release. rewrite Hn'.
    rewrite lookup_insert_eq. simpl. lia.
  - unfold heap_after_destroy, owned in Hh2. destruct He1 as [Hv1 _].
    by rewrite Hv1 in Hh2.
Qed.

Lemma moved_intro w w' c d o :
  holds w c o → vacant w' c → holds w' d o → moved w w' c d o.
Proof.
  intros Hc He Hd. unfold moved.
  destruct (operator_bool_empty w' c He) as [? ?].
  destruct (operator_bool_holds w' d o Hd) as [? ?].
  split_and!; try done; try apply He.
  intros z.
  rewrite (call_contains w' d (Some o) z Hd), (call_contains w c (Some o) z Hc).
  done.
Qed.

(** C3 (amended). For the owning containers: after [d] is move
    constructed from a distinct [c] that holds a payload, wherever the new
    container [d] is built, or move assigned from it, [d] then being a
    container of its own, [c]'s table pointer is the empty table and [c]
    tests null, [d] holds the payload and answers calls as [c] did; the
    counts and the free store are untouched by move construction, the
    counts by a row of any number of move constructions, and they change
    under move assignment only by the release of what [d] held. *)
Theorem move_leaves_source_empty w c d o ds :
  c ≠ d → holds w c o → NoDup (c :: ds) →
  (∃ w', ctor_move d c w = Ok tt w' ∧ moved w w' c d o
         ∧ w_ints w' = w_ints w ∧ w_heap w' = w_heap w)
  ∧ (∀ y, contains w d y → separate w c d →
       ∃ w', assign_move d c w = Ok tt w' ∧ moved w w' c d o
             ∧ w_ints w' = released y (w_ints w))
  ∧ (∃ w', move_chain c ds w = Ok (default c (last ds)) w'
           ∧ holds w' (default c (last ds)) o
           ∧ (∀ l, l ∈ c :: ds → l ≠ default c (last ds) →
                w_vtable w' !! l = Some (Some null_vtable))
           ∧ (∀ z, returned (call (default c (last ds)) z w') = returned (call c z w))
           ∧ w_ints w' = w_ints w).
Proof.
  intros Hne Hc Hnd. split_and!.
  - destruct (ctor_move_contains w c d (Some o) Hne Hc)
      as (w' & E & He & Hh & Hi & Hp & _).
    exists w'. split_and!; try done. by apply moved_intro.
  - intros y Hd Hsep.
    destruct (assign_move_contains w c d (Some o) y Hne Hc Hd Hsep)
      as (w' & E & He & Hh & Hi & _).
    exists w'. split_and!; try done. by apply moved_intro.
  - destruct (move_chain_contains ds w c (Some o) Hnd Hc)
      as (w' & E & Hh & He & Hi & _).
    exists w'. split_and!; try done.
    + intros l Hl Hl'. by apply He.
    + intros z.
      rewrite (call_contains w' _ (Some o) z Hh), (call_contains w c (Some o) z Hc).
      done.
Qed.

(** C4 (amended). For two distinct containers, each empty or holding a
    payload, [swap] returns with the contents and the table pointers
    exchanged and with counts and free store untouched; this covers an
    empty instance swapped with a non-empty one. A second [swap] gives
    both back what they held, and calls answer as they did at first.
    The code has no guard for [swap(a, a)]. *)
Theorem swap_exchanges_and_restores w a b x y :
  a ≠ b → contains w a x → contains w b y →
  ∃ w1 w2,
    swap a b w = Ok tt w1
    ∧ contains w1 a y ∧ contains w1 b x
    ∧ w_vtable w1 !! a = w_vtable w !! b
    ∧ w_vtable w1 !! b = w_vtable w !! a
    ∧ w_ints w1 = w_ints w ∧ w_heap w1 = w_heap w
    ∧ swap a b w1 = Ok tt w2
    ∧ contains w2 a x ∧ contains w2 b y
    ∧ w_ints w2 = w_ints w ∧ w_heap w2 = w_heap w
    ∧ ∀ z, returned (call a z w2) = returned (call a z w)
           ∧ returned (call b z w2) = returned (call b z w).
Proof.
  intros Hne Ha Hb.
  destruct (swap_contains w a b x y Hne Ha Hb)
    as (w1 & E1 & Ha1 & Hb1 & Hi1 & Hh1 & Hva & Hvb & _).
  destruct (swap_contains w1 a b y x Hne Ha1 Hb1)
    as (w2 & E2 & Ha2 & Hb2 & Hi2 & Hh2 & _).
  exists w1, w2. split_and!; try done; try congruence.
  intros z.
  rewrite (call_contains w2 a x z Ha2), (call_contains w a x z Ha).
  rewrite (call_contains w2 b y z Hb2), (call_contains w b y z Hb).
  done.
Qed.

(** C5 (amended). The converting constructor and the converting assignment
    store the table pointer of the new type first and construct the payload
    after it. When that construction throws, the table pointer is already
    the new type's while the storage holds no new payload; the exception
    leaves the constructor with the container never having come to life,
    and the [noexcept] assignment terminates. When it does not throw, both
    return with the container holding the payload. *)
Theorem binding_sets_table_first w this new a y :
  static_asserts (o_type (arg_object a)) = true →
  contains w this y → unused w new →
  if arg_throws a then
    (∃ w1, ctor_callable_body new a w = Throw payload_exception w1
           ∧ w_vtable w1 !! new = Some (Some (callable_vtable (o_type (arg_object a))))
           ∧ w_storage w1 !! new = Some Indeterminate)
    ∧ ctor_callable new a w = Throw payload_exception w
    ∧ (∃ w0 w1, assign_nullptr this w = Ok tt w0
           ∧ set_vtable this (callable_vtable (o_type (arg_object a))) w0 = Ok tt w1
           ∧ assign_callable_body this a w = Throw payload_exception w1)
    ∧ assign_callable this a w = Terminate
  else
    (∃ w', ctor_callable new a w = Ok tt w' ∧ holds w' new (arg_object a))
    ∧ (∃ w', assign_callable this a w = Ok tt w' ∧ holds w' this (arg_object a)).
Proof.
  intros Hsa Hc [Hnv Hns]. destruct (arg_throws a) eqn:Hth.
  - destruct (in_place (o_type (arg_object a))) eqn:Hin'; split_and!.
    + open_world w. exec; finish.
    + open_world w. exec.
      by rewrite !delete_insert_eq, !delete_id.
    + open_world w. open_contains Hc; unfold_spec; exec; finish;
        by rewrite insert_insert_eq.
    + open_world w. open_contains Hc; unfold_spec; exec; finish.
    + open_world w. exec; finish.
    + open_world w. exec.
      by rewrite !delete_insert_eq, !delete_id.
    + open_world w. open_contains Hc; unfold_spec; exec; finish;
        by rewrite insert_insert_eq.
    + open_world w. open_contains Hc; unfold_spec; exec; finish.
  - split.
    + destruct (ctor_callable_returns w new a Hsa Hth) as (w' & E & Hh & _). eauto.
    + destruct (assign_callable_returns w this a y Hsa Hth Hc) as (w' & E & Hh & _). eauto.
Qed.

(** C9. Over any state in which no table pointer is null, every operation
    that returns leaves no table pointer null. Default and null
    construction and null assignment leave the container's pointer at the
    empty table, a move leaves the source's pointer there, and binding a
    callable leaves the pointer at the table of the callable's type. *)
Theorem table_pointer_never_null op w w' :
  never_null w → run op w = Ok tt w' →
  never_null w'
  ∧ match op with
    | op_ctor_default this | op_ctor_nullptr this | op_assign_nullptr this =>
        w_vtable w' !! this = Some (Some null_vtable)
    | op_ctor_move this other | op_assign_move this other =>
        this ≠ other → w_vtable w' !! other = Some (Some null_vtable)
    | op_ctor_callable this a | op_assign_callable this a =>
        w_vtable w' !! this = Some (Some (callable_vtable (o_type (arg_object a))))
    | _ => True
    end.
Proof.
  intros Hn E. split.
  - eapply never_null_step; [done|]. by eapply st_run.
  - open_world w. destruct op; try done; simpl in E; unfold_model; simpl in *;
      repeat (case_match; simplify_eq; simpl in * );
      simplify_eq; simpl; try intros ?; exec; try done.
Qed.

(** ** Further properties of the owning containers *)

(** X1. The destructor of a container that holds a payload runs the
    payload's destructor once: its count goes down by exactly one, a
    heap-stored payload is deleted, and the container is gone; no other
    container is touched. *)
Theorem destructor_releases_payload w l o :
  holds w l o →
  ∃ w', dtor l w = Ok tt w'
        ∧ unused w' l
        ∧ w_ints w' = release o (w_ints w)
        ∧ (∀ n, m_value o = Some n → count w' n = (count w n - 1)%Z)
        ∧ w_heap w' = heap_after_destroy w l
        ∧ (∀ p, owned w l = Some p → w_heap w' !! p = None)
        ∧ frame w w' l l.
Proof.
  intros H.
  destruct (dtor_contains w l (Some o) H) as (w' & E & Hu & Hi & Hh & Hf).
  exists w'. split_and!; try done.
  - intros n Hn. unfold count. rewrite Hi. simpl. unfold release. rewrite Hn.
    rewrite lookup_insert_eq. simpl. lia.
  - intros p Hp. rewrite Hh. unfold heap_after_destroy. rewrite Hp.
    apply lookup_delete_eq.
Qed.

(** X2. Assigning a callable to a container, empty or not, destroys what
    the container held through the current table (count down by one, a
    heap-stored payload deleted), then constructs the new payload: in place
    with no allocation, or in exactly one new allocation. The container
    holds the new payload and no other container is touched. *)
Theorem reassignment_replaces_payload w this a y :
  static_asserts (o_type (arg_object a)) = true → arg_throws a = false →
  contains w this y →
  ∃ w', assign_callable this a w = Ok tt w'
        ∧ holds w' this (arg_object a)
        ∧ w_ints w' = acquired a (released y (w_ints w))
        ∧ (if in_place (o_type (arg_object a))
           then w_heap w' = heap_after_destroy w this
           else ∃ q, q ≠ nullptr ∧ heap_after_destroy w this !! q = None
                ∧ w_heap w' = <[q := arg_object a]> (heap_after_destroy w this))
        ∧ frame w w' this this.
Proof.
  intros Hsa Hth H. open_world w.
  destruct (in_place (o_type (arg_object a))) eqn:Hin';
    open_contains H; unfold_spec; unfold frame; exec;
    (eexists; split; [reflexivity|]); simpl; exec; split_and!; try done;
    try (by intros; split; exec);
    try (eexists; split; [done|by exec]);
    match goal with
    | |- ∃ q, _ ∧ ?h !! q = None ∧ _ =>
        destruct (fresh_address h) as [? ?]; by eexists
    end.
Qed.

(** X3. Copy construction from a container whose payload is stored in
    place gives the new container the source's table pointer and a copy of
    the payload made by the payload's copy constructor (its count goes up by
    one), with no allocation. The copy is independent: a call of the copy
    updates the copy's state and leaves the source's payload as it was. *)
Theorem copy_construction_in_place w b a o z :
  copyable = true → a ≠ b → holds w a o → in_place (o_type o) = true →
  ∃ w', ctor_copy b a w = Ok tt w'
        ∧ holds w' a o ∧ holds w' b o
        ∧ w_vtable w' !! b = w_vtable w' !! a
        ∧ w_ints w' = duplicate o (w_ints w)
        ∧ w_heap w' = w_heap w
        ∧ frame w w' b b
        ∧ ∃ w'', call b z w' = Ok (snd (invoke (o_type o) (o_state o) z)) w''
                 ∧ holds w'' a o
                 ∧ holds w'' b (set_state o (fst (invoke (o_type o) (o_state o) z))).
Proof.
  intros Hc Hne [Hv Hs] Hin. rewrite Hin in Hs. open_world w.
  assert (Hsi : V = copyable_function → store_inplace (o_type o) = true).
  { intros HV. unfold in_place in Hin. by rewrite HV in Hin. }
  unfold ctor_copy. rewrite Hc. unfold copyable in Hc.
  destruct V eqn:HV; try done; try specialize (Hsi eq_refl);
    unfold_spec; unfold frame; exec;
    (eexists; split; [reflexivity|]); simpl; exec; split_and!; try done;
    try (by intros; split; exec);
    destruct NoExcept eqn:HN, NDEBUG eqn:HD; exec;
    (eexists; split; [reflexivity|]); simpl; by exec.
Qed.

(** X4. Copy assignment between two distinct containers that store
    payloads of the same type in place destroys the destination's payload
    and copy constructs the source's in its stead: the destination then
    holds a copy of the source's payload, and the source is unchanged. *)
Theorem copy_assignment_same_type w b a ob oa :
  copyable = true → a ≠ b → holds w b ob → holds w a oa →
  o_type ob = o_type oa → in_place (o_type oa) = true →
  ∃ w', assign_copy b a w = Ok tt w'
        ∧ holds w' b oa ∧ holds w' a oa
        ∧ w_ints w' = duplicate oa (release ob (w_ints w))
        ∧ w_heap w' = w_heap w
        ∧ frame w w' b b.
Proof.
  intros Hc Hne [Hvb Hsb] [Hva Hsa] Hty Hin. rewrite Hty in Hvb, Hsb.
  rewrite Hin in Hsa, Hsb. open_world w.
  assert (Hsi : V = copyable_function → store_inplace (o_type oa) = true).
  { intros HV. unfold in_place in Hin. by rewrite HV in Hin. }
  unfold assign_copy. rewrite Hc. unfold copyable in Hc.
  destruct V eqn:HV; try done; try specialize (Hsi eq_refl);
    unfold_spec; unfold frame; exec;
    (eexists; split; [reflexivity|]); simpl; exec; split_and!; try done;
    by intros; split; exec.
Qed.

(** X5. Copy assignment has no guard for self-assignment and does not
    look at the source's table: assigned from itself, or from a container
    that holds a payload of another type, a container that holds a payload
    first destroys it and then reads the source's storage as an object of
    the destination's type, which is undefined. *)
Theorem copy_assignment_undefined w b a ob :
  copyable = true → holds w b ob →
  a = b ∨ (∃ oa, holds w a oa ∧ o_type oa ≠ o_type ob) →
  assign_copy b a w = UB.
Proof.
  intros Hc [Hvb Hsb] Ha. open_world w.
  unfold assign_copy. rewrite Hc. unfold copyable in Hc.
  destruct (in_place (o_type ob)) eqn:Hin; [|destruct Hsb as (p & Hsb & Hp)].
  - assert (Hsi : V = copyable_function → store_inplace (o_type ob) = true).
    { intros HV. unfold in_place in Hin. by rewrite HV in Hin. }
    destruct Ha as [->|(oa & [Hva Hsa] & Hty)]; simpl in *.
    + destruct V eqn:HV; try done; try specialize (Hsi eq_refl); by exec.
    + assert (a ≠ b) by (intros E; subst; congruence).
      destruct (in_place (o_type oa)) eqn:Hin'; [|destruct Hsa as (q & Hsa & Hq)];
        destruct V eqn:HV; try done; try specialize (Hsi eq_refl); exec;
        try done.
  - assert (Hsi : V = copyable_function → store_inplace (o_type ob) = false).
    { intros HV. unfold in_place in Hin. by rewrite HV in Hin. }
    destruct Ha as [->|(oa & [Hva Hsa] & Hty)]; simpl in *.
    + destruct V eqn:HV; try done; try specialize (Hsi eq_refl); by exec.
    + assert (a ≠ b) by (intros E; subst; congruence).
      destruct (in_place (o_type oa)) eqn:Hin'; [|destruct Hsa as (q & Hsa & Hq)];
        destruct V eqn:HV; try done; try specialize (Hsi eq_refl); exec;
        try done.
Qed.

Lemma holds_preserved w w' l o :
  holds w l o →
  w_vtable w' !! l = w_vtable w !! l →
  w_storage w' !! l = w_storage w !! l →
  (∀ p, owned w l = Some p → w_heap w' !! p = w_heap w !! p) →
  holds w' l o.
Proof.
  intros [Hv Hs] Ev Es Eh. unfold holds. rewrite Ev, Es. split; [done|].
  destruct (in_place (o_type o)) eqn:Hin; [done|].
  destruct Hs as (p & Hs & Hp). exists p. split; [done|].
  rewrite Eh; [done|]. unfold owned. by rewrite Hv, Hs, Hin.
Qed.

Lemma holds_owned_in_heap w l o p :
  holds w l o → owned w l = Some p → w_heap w !! p = Some o.
Proof.
  intros [Hv Hs]. unfold owned. rewrite Hv.
  destruct (in_place (o_type o)) eqn:Hin.
  - by rewrite Hs.
  - destruct Hs as (q & -> & Hq). by intros [= <-].
Qed.

Lemma reassign_heap w this a y :
  static_asserts (o_type (arg_object a)) = true → arg_throws a = false →
  contains w this y →
  ∃ w', assign_callable this a w = Ok tt w'
        ∧ holds w' this (arg_object a)
        ∧ (∀ p o, heap_after_destroy w this !! p = Some o → w_heap w' !! p = heap_after_destroy w this !! p)
        ∧ frame w w' this this.
Proof.
  intros Hsa Hth H. open_world w.
  destruct (in_place (o_type (arg_object a))) eqn:Hin';
    open_contains H; unfold_spec; unfold frame; exec;
    (eexists; split; [reflexivity|]); simpl; exec; split_and!; try done;
    try (by intros; split; exec);
    try (eexists; split; [done|by exec]);
    intros q oq Hq;
    match goal with
    | |- <[fresh ({[nullptr]} ∪ dom ?h) := _]> _ !! _ = _ =>
        destruct (fresh_address h) as [_ Hfr];
        rewrite lookup_insert_ne; [done|]; intros <-; congruence
    end.
Qed.

(** X6. A payload bound to a new container, moved on to a second one and
    destroyed with it leaves the free store exactly as it was before the
    binding: the one allocation of a heap-stored payload is matched by one
    deallocation, after the move as well, and the payload's destructor has
    run once. *)
Theorem lifetime_restores_free_store w x y a :
  static_asserts (o_type (arg_object a)) = true → arg_throws a = false →
  x ≠ y →
  ∃ w', (ctor_callable x a;; ctor_move y x;; dtor y;; dtor x) w = Ok tt w'
        ∧ w_heap w' = w_heap w
        ∧ w_ints w' = release (arg_object a) (acquired a (w_ints w))
        ∧ unused w' x ∧ unused w' y.
Proof.
  intros Hsa Hth Hne. open_world w. unfold_spec.
  destruct (in_place (o_type (arg_object a))) eqn:Hin; exec;
    (eexists; split; [reflexivity|]); simpl; exec; split_and!; try done;
    simplify_eq; rewrite ?lookup_insert_eq; simpl; try done;
    destruct (fresh_address hp) as [? ?]; by rewrite delete_insert_id.
Qed.

(** X7. The two in-place classes never touch the free store: whatever
    operation of theirs returns, on whatever state, the free store is the
    same before and after. *)
Theorem in_place_classes_never_allocate op w w' :
  fixed_capacity = true → run op w = Ok tt w' → w_heap w' = w_heap w.
Proof.
  intros HV E. open_world w.
  assert (Hin : ∀ T, in_place T = true).
  { intros T. unfold in_place. unfold fixed_capacity in HV. by destruct V. }
  unfold fixed_capacity in HV.
  destruct V eqn:HV'; try done;
    destruct op; simpl in E; unfold_model; simpl in *;
    repeat first [ rewrite Hin in E | rewrite HV' in E
                 | progress (case_match; simplify_eq; simpl in * ) ];
    try (by simplify_eq);
    match goal with H : in_place _ = false |- _ => by rewrite Hin in H end.
Qed.


(** X9. A container that holds a payload answers a row of calls exactly
    as the payload object invoked directly would, each call seeing the state
    the previous one left (a mutable closure); the calls touch no count. *)
Theorem calls_answer_as_payload zs : ∀ w l o,
  holds w l o →
  ∃ w', calls l zs w = Ok (fst (answers (o_type o) (o_state o) zs)) w'
        ∧ holds w' l (set_state o (snd (answers (o_type o) (o_state o) zs)))
        ∧ w_ints w' = w_ints w.
Proof.
  induction zs as [|z zs IH]; intros w l o H; simpl.
  - exists w. split; [done|]. split; [|done]. by destruct o.
  - destruct (call_holds w l o z H) as (w1 & E1 & H1 & Hi1).
    destruct (IH w1 l _ H1) as (w2 & E2 & H2 & Hi2). simpl in *.
    exists w2. split.
    { unfold mbind, M_bind, bind. rewrite E1. unfold mbind, M_bind, bind in E2.
      by rewrite E2. }
    split; [done|congruence].
Qed.

(** X10. A moved-from container is an empty one: calling it fails as a
    call of an empty container does, destroying it changes neither counts
    nor free store nor the new owner, and it can be bound again, after which
    both containers hold their payloads. *)
Theorem moved_from_container_is_reusable w c d o a z :
  c ≠ d → holds w c o →
  static_asserts (o_type (arg_object a)) = true → arg_throws a = false →
  ∃ w', ctor_move d c w = Ok tt w'
        ∧ call c z w' =
            (if NDEBUG then if NoExcept then Terminate else Throw bad_function_call w'
             else AssertFail)
        ∧ (∃ w1, dtor c w' = Ok tt w1 ∧ holds w1 d o
                 ∧ w_ints w1 = w_ints w ∧ w_heap w1 = w_heap w)
        ∧ (∃ w2, assign_callable c a w' = Ok tt w2
                 ∧ holds w2 c (arg_object a) ∧ holds w2 d o).
Proof.
  intros Hne Hc Hsa Hth.
  destruct (ctor_move_contains w c d (Some o) Hne Hc) as (w' & E & Hv & Hd & Hi & Hh & _).
  assert (Hown : owned w' c = None).
  { unfold owned. destruct Hv as [-> _]. done. }
  exists w'. split_and!; try done.
  - by apply call_empty.
  - destruct (dtor_contains w' c None Hv) as (w1 & E1 & _ & Hi1 & Hh1 & Hf1).
    unfold heap_after_destroy in Hh1. rewrite Hown in Hh1. simpl in Hi1.
    exists w1. split_and!; try done; try congruence.
    destruct (Hf1 d) as [? ?]; [done..|].
    eapply holds_preserved; [exact Hd|done|done|]. intros. by rewrite Hh1.
  - destruct (reassign_heap w' c a None Hsa Hth Hv) as (w2 & E2 & H2 & Hh2 & Hf2).
    unfold heap_after_destroy in Hh2. rewrite Hown in Hh2.
    exists w2. split_and!; try done.
    destruct (Hf2 d) as [? ?]; [done..|].
    eapply holds_preserved; [exact Hd|done|done|].
    intros p Hp. eapply Hh2. by eapply holds_owned_in_heap.
Qed.

(** X11. No operation touches a container it does not name: the table
    pointer and the storage of every other container are the same before
    and after, whatever the operation and the state. *)
Theorem operations_touch_only_operands op w w' l :
  run op w = Ok tt w' → l ∉ operands op →
  w_vtable w' !! l = w_vtable w !! l ∧ w_storage w' !! l = w_storage w !! l.
Proof.
  intros E Hl. open_world w.
  destruct op; simpl in Hl;
    repeat (apply not_elem_of_cons in Hl as [? Hl]);
    simpl in E; unfold_model; simpl in *;
    repeat (case_match; simplify_eq; simpl in * );
    simplify_eq; simpl;
    split;
    repeat first [ rewrite lookup_insert_ne by congruence
                 | rewrite lookup_delete_ne by congruence ];
    done.
Qed.

(** *** Ownership of the free store across operations *)

Lemma owned_frame w w' l :
  w_vtable w' !! l = w_vtable w !! l → w_storage w' !! l = w_storage w !! l →
  owned w' l = owned w l.
Proof. intros Ev Es. unfold owned. by rewrite Ev, Es. Qed.

Lemma owned_holds w l p :
  owned w l = Some p → ∀ x, contains w l x → ∃ o, x = Some o ∧ w_heap w !! p = Some o.
Proof.
  intros Ho [o|] Hx; simpl in Hx.
  - exists o. split; [done|]. by eapply holds_owned_in_heap.
  - destruct Hx as [Hv _]. unfold owned in Ho. by rewrite Hv in Ho.
Qed.

Lemma owned_in_heap w l p :
  well_formed w → owned w l = Some p → is_Some (w_heap w !! p).
Proof.
  intros [Hc _] Ho.
  assert (∃ v, w_vtable w !! l = Some v) as [v Hv].
  { unfold owned in Ho. destruct (w_vtable w !! l); [by eexists|done]. }
  destruct (Hc l v Hv) as [x Hx].
  destruct (owned_holds w l p Ho x Hx) as (o & _ & ->). by eexists.
Qed.

Lemma well_formed_step ls w w' :
  well_formed w → local_step ls w w' → well_formed w'.
Proof.
  intros Hwf (Hf & Hc & Hh & Hn & Hu). pose proof Hwf as [Hwc Hwu]. split.
  - intros l v Hv. destruct (decide (l ∈ ls)) as [Hl|Hl]; [by eapply Hc|].
    destruct (Hf l Hl) as [Ev Es]. rewrite Ev in Hv.
    destruct (Hwc l v Hv) as [x Hx]. exists x.
    destruct x as [o|]; simpl in *.
    + eapply holds_preserved; [exact Hx|done|done|].
      intros p Hp. destruct (Hh p) as [E|[E|(l0 & Hl0 & Ho)]]; [done| |].
      * rewrite (holds_owned_in_heap w l o p Hx Hp) in E. done.
      * rewrite (Hwu l0 l p Ho Hp) in Hl0. done.
    + destruct Hx as [? ?]. split; congruence.
  - intros l1 l2 p H1 H2.
    destruct (decide (l1 ∈ ls)) as [Hl1|Hl1], (decide (l2 ∈ ls)) as [Hl2|Hl2].
    + by eapply Hu.
    + destruct (Hf l2 Hl2) as [Ev Es].
      rewrite (owned_frame w w' l2 Ev Es) in H2.
      destruct (Hn l1 p Hl1 H1) as [E|(l0 & Hl0 & Ho)].
      * destruct (owned_in_heap w l2 p Hwf H2) as [o Ho]. congruence.
      * rewrite (Hwu l0 l2 p Ho H2) in Hl0. done.
    + destruct (Hf l1 Hl1) as [Ev Es].
      rewrite (owned_frame w w' l1 Ev Es) in H1.
      destruct (Hn l2 p Hl2 H2) as [E|(l0 & Hl0 & Ho)].
      * destruct (owned_in_heap w l1 p Hwf H1) as [o Ho]. congruence.
      * rewrite (Hwu l0 l1 p Ho H1) in Hl0. done.
    + destruct (Hf l1 Hl1) as [Ev1 Es1]. destruct (Hf l2 Hl2) as [Ev2 Es2].
      rewrite (owned_frame w w' l1 Ev1 Es1) in H1.
      rewrite (owned_frame w w' l2 Ev2 Es2) in H2. by eapply Hwu.
Qed.

Lemma local_step_same ls w : well_formed w → local_step ls w w.
Proof.
  intros [Hc Hu]. split_and!.
  - by intros l Hl.
  - intros l v _ Hv. by eapply Hc.
  - intros p. by left.
  - intros l p Hl Ho. right. by exists l.
  - intros l1 l2 p _ _. apply Hu.
Qed.

Lemma heap_after_destroy_lookup w l q :
  heap_after_destroy w l !! q = w_heap w !! q ∨ owned w l = Some q.
Proof.
  unfold heap_after_destroy. destruct (owned w l) as [p|] eqn:Ho; [|by left].
  destruct (decide (p = q)) as [->|Hne]; [by right|].
  left. by apply lookup_delete_ne.
Qed.

Lemma frame_to_list w w' a : frame w w' a a → frame_list w w' [a].
Proof.
  intros Hf l Hl. apply Hf; intros ->; apply Hl; by left.
Qed.

Lemma frame_to_list2 w w' a b : frame w w' a b → frame_list w w' [b; a].
Proof.
  intros Hf l Hl. apply Hf; intros ->; apply Hl; [right|]; by left.
Qed.

Lemma owned_vacant w l : vacant w l → owned w l = None.
Proof. intros [Hv _]. unfold owned. by rewrite Hv. Qed.

Lemma owned_unused w l : unused w l → owned w l = None.
Proof. intros [Hv _]. unfold owned. by rewrite Hv. Qed.

(** The destructor and the null assignment: the operand gives up what it
    owns. *)
Lemma local_step_release w w' l :
  owned w' l = None →
  (∀ v, w_vtable w' !! l = Some v → vacant w' l) →
  w_heap w' = heap_after_destroy w l →
  frame w w' l l →
  local_step [l] w w'.
Proof.
  intros Ho Hv Hh Hf. split_and!.
  - by apply frame_to_list.
  - intros l' v Hl. apply list_elem_of_singleton in Hl as ->.
    intros Hv'. exists None. by eapply Hv.
  - intros p. rewrite Hh.
    destruct (heap_after_destroy_lookup w l p) as [E|E]; [by left|].
    right; right. exists l. split; [by left|done].
  - intros l' p Hl. apply list_elem_of_singleton in Hl as ->. by rewrite Ho.
  - intros l1 l2 p Hl1 Hl2.
    apply list_elem_of_singleton in Hl1 as ->.
    by apply list_elem_of_singleton in Hl2 as ->.
Qed.

Lemma dtor_local_step w w' l x :
  contains w l x → dtor l w = Ok tt w' → local_step [l] w w'.
Proof.
  intros Hx E.
  destruct (dtor_contains w l x Hx) as (w1 & E1 & Hu & _ & Hh & Hf).
  rewrite E in E1. injection E1 as <-.
  apply local_step_release; try done.
  - by apply owned_unused.
  - intros v Hv. destruct Hu as [Hu _]. congruence.
Qed.

Lemma assign_nullptr_local_step w w' l x :
  contains w l x → assign_nullptr l w = Ok tt w' → local_step [l] w w'.
Proof.
  intros Hx E.
  destruct (assign_nullptr_contains w l x Hx) as (w1 & E1 & Hu & _ & Hh & Hf).
  rewrite E in E1. injection E1 as <-.
  apply local_step_release; try done. by apply owned_vacant.
Qed.

Lemma ctor_default_local_step w w' l :
  ctor_default l w = Ok tt w' → local_step [l] w w'.
Proof.
  intros E. open_world w. unfold ctor_default, begin_lifetime in E.
  injection E as <-.
  assert (Hv : vacant (World (<[l:=Some null_vtable]> vt) (<[l:=Indeterminate]> st) tmp hp ints) l).
  { split; simpl; rewrite lookup_insert_eq; [done|by eexists]. }
  split_and!.
  - intros l' Hl. simpl. rewrite !lookup_insert_ne; [done| |];
      intros ->; apply Hl; by left.
  - intros l' v Hl. apply list_elem_of_singleton in Hl as ->. intros _. by exists None.
  - intros p. by left.
  - intros l' p Hl. apply list_elem_of_singleton in Hl as ->.
    by rewrite (owned_vacant _ _ Hv).
  - intros l1 l2 p Hl1 Hl2.
    apply list_elem_of_singleton in Hl1 as ->.
    by apply list_elem_of_singleton in Hl2 as ->.
Qed.

Lemma ctor_move_owned w c d x :
  c ≠ d → contains w c x →
  ∃ w', ctor_move d c w = Ok tt w' ∧ owned w' d = owned w c.
Proof.
  intros Hne H. open_world w. open_contains H; unfold_spec; exec; finish.
Qed.

Lemma assign_move_owned w c d x y :
  c ≠ d → contains w c x → contains w d y → separate w c d →
  ∃ w', assign_move d c w = Ok tt w' ∧ owned w' d = owned w c.
Proof.
  intros Hne Hc Hd Hsep. open_world w.
  assert (Hb : bool_decide (d ≠ c) = true) by (apply bool_decide_eq_true; congruence).
  revert Hsep. unfold separate.
  open_contains Hc; open_contains Hd; unfold_spec; exec;
    intros Hsep;
    try (assert (p0 ≠ p) by (destruct Hsep; congruence));
    destruct NDEBUG eqn:HD; exec; finish.
Qed.

Lemma swap_owned w a b x y :
  a ≠ b → contains w a x → contains w b y →
  ∃ w', swap a b w = Ok tt w' ∧ owned w' a = owned w b ∧ owned w' b = owned w a.
Proof.
  intros Hne Ha Hb. open_world w.
  open_contains Ha; open_contains Hb; unfold_spec; exec; finish.
Qed.

Lemma separate_well_formed w c d : well_formed w → c ≠ d → separate w c d.
Proof.
  intros [_ Hu] Hne. unfold separate.
  destruct (owned w c) as [p|] eqn:Hc; [|by left]. right.
  intros Hd. apply Hne. by eapply Hu.
Qed.

(** A move: [d] takes over what [c] owned, [c] is left empty; [heap] says
    what became of the free store. *)
Lemma local_step_move w w' c d x :
  c ≠ d → vacant w' c → contains w' d x → owned w' d = owned w c →
  (∀ p, w_heap w' !! p = w_heap w !! p ∨ owned w d = Some p) →
  frame w w' c d →
  local_step [d; c] w w'.
Proof.
  intros Hne Hc Hd Ho Hh Hf. split_and!.
  - by apply frame_to_list2.
  - intros l v Hl _. apply elem_of_cons in Hl as [->|Hl].
    + by exists x.
    + apply list_elem_of_singleton in Hl as ->. by exists None.
  - intros p. destruct (Hh p) as [E|E]; [by left|].
    right; right. exists d. split; [by left|done].
  - intros l p Hl. apply elem_of_cons in Hl as [->|Hl].
    + rewrite Ho. intros E. right. exists c. split; [right; by left|done].
    + apply list_elem_of_singleton in Hl as ->. by rewrite (owned_vacant _ _ Hc).
  - intros l1 l2 p Hl1 Hl2 H1 H2.
    apply elem_of_cons in Hl1 as [->|Hl1], Hl2 as [->|Hl2]; try done.
    + apply list_elem_of_singleton in Hl2 as ->. by rewrite (owned_vacant _ _ Hc) in H2.
    + apply list_elem_of_singleton in Hl1 as ->. by rewrite (owned_vacant _ _ Hc) in H1.
    + apply list_elem_of_singleton in Hl1 as ->.
      by apply list_elem_of_singleton in Hl2 as ->.
Qed.

Lemma ctor_move_local_step w w' c d x :
  c ≠ d → contains w c x → ctor_move d c w = Ok tt w' → local_step [d; c] w w'.
Proof.
  intros Hne Hx E.
  destruct (ctor_move_contains w c d x Hne Hx) as (w1 & E1 & Hc & Hd & _ & Hh & Hf).
  rewrite E in E1. injection E1 as <-.
  destruct (ctor_move_owned w c d x Hne Hx) as (w1 & E1 & Ho).
  rewrite E in E1. injection E1 as <-.
  eapply local_step_move; try done. intros p. left. by rewrite Hh.
Qed.

Lemma assign_move_local_step w w' c d x y :
  well_formed w → c ≠ d → contains w c x → contains w d y →
  assign_move d c w = Ok tt w' → local_step [d; c] w w'.
Proof.
  intros Hwf Hne Hx Hy E.
  pose proof (separate_well_formed w c d Hwf Hne) as Hsep.
  destruct (assign_move_contains w c d x y Hne Hx Hy Hsep)
    as (w1 & E1 & Hc & Hd & _ & Hh & Hf).
  rewrite E in E1. injection E1 as <-.
  destruct (assign_move_owned w c d x y Hne Hx Hy Hsep) as (w1 & E1 & Ho).
  rewrite E in E1. injection E1 as <-.
  eapply local_step_move; try done. intros p. rewrite Hh.
  apply heap_after_destroy_lookup.
Qed.

Lemma swap_local_step w w' a b x y :
  well_formed w → a ≠ b → contains w a x → contains w b y →
  swap a b w = Ok tt w' → local_step [a; b] w w'.
Proof.
  intros [_ Hu] Hne Hx Hy E.
  destruct (swap_contains w a b x y Hne Hx Hy)
    as (w1 & E1 & Ha & Hb & _ & Hh & _ & _ & Hf).
  rewrite E in E1. injection E1 as <-.
  destruct (swap_owned w a b x y Hne Hx Hy) as (w1 & E1 & Hoa & Hob).
  rewrite E in E1. injection E1 as <-.
  split_and!.
  - intros l Hl. apply Hf; intros ->; apply Hl; [|right]; by left.
  - intros l v Hl _. apply elem_of_cons in Hl as [->|Hl].
    + by exists y.
    + apply list_elem_of_singleton in Hl as ->. by exists x.
  - intros p. left. by rewrite Hh.
  - intros l p Hl. apply elem_of_cons in Hl as [->|Hl].
    + rewrite Hoa. intros E'. right. exists b. split; [right; by left|done].
    + apply list_elem_of_singleton in Hl as ->. rewrite Hob.
      intros E'. right. exists a. split; [by left|done].
  - intros l1 l2 p Hl1 Hl2 H1 H2.
    apply elem_of_cons in Hl1 as [->|Hl1], Hl2 as [->|Hl2]; try done.
    + apply list_elem_of_singleton in Hl2 as ->.
      rewrite Hoa in H1. rewrite Hob in H2. symmetry. by eapply Hu.
    + apply list_elem_of_singleton in Hl1 as ->.
      rewrite Hoa in H2. rewrite Hob in H1. by eapply Hu.
    + apply list_elem_of_singleton in Hl1 as ->.
      by apply list_elem_of_singleton in Hl2 as ->.
Qed.

Lemma insert_fresh_lookup (h : gmap addr object) o p :
  <[fresh ({[nullptr]} ∪ dom h) := o]> h !! p = h !! p ∨ h !! p = None.
Proof.
  destruct (fresh_address h) as [_ Hf].
  destruct (decide (fresh ({[nullptr]} ∪ dom h) = p)) as [<-|Hne]; [by right|].
  left. by apply lookup_insert_ne.
Qed.

Lemma insert_lookup_or (h : gmap addr object) o q p :
  <[q := o]> h !! p = h !! p ∨ Some q = Some p.
Proof.
  destruct (decide (q = p)) as [->|Hne]; [by right|].
  left. by apply lookup_insert_ne.
Qed.

Lemma ctor_callable_facts w this a :
  static_asserts (o_type (arg_object a)) = true → arg_throws a = false →
  ∃ w', ctor_callable this a w = Ok tt w'
        ∧ holds w' this (arg_object a)
        ∧ (∀ p, w_heap w' !! p = w_heap w !! p ∨ w_heap w !! p = None)
        ∧ (∀ q, owned w' this = Some q → w_heap w !! q = None)
        ∧ (∀ p, w_heap w' !! p = w_heap w !! p ∨ owned w' this = Some p)
        ∧ frame w w' this this.
Proof.
  intros Hsa Hth. open_world w. unfold_spec; unfold frame.
  destruct (in_place (o_type (arg_object a))) eqn:Hin; exec;
    (eexists; split; [reflexivity|]); simpl; exec; split_and!; try done;
    try (by intros; split; exec);
    try (eexists; split; [done|by exec]);
    try (intros p; by left);
    try apply insert_fresh_lookup;
    try (intros q [= <-]; apply fresh_address);
    apply insert_lookup_or.
Qed.

Lemma assign_callable_facts w this a y :
  static_asserts (o_type (arg_object a)) = true → arg_throws a = false →
  contains w this y →
  ∃ w', assign_callable this a w = Ok tt w'
        ∧ holds w' this (arg_object a)
        ∧ (∀ p, w_heap w' !! p = heap_after_destroy w this !! p
                ∨ heap_after_destroy w this !! p = None)
        ∧ (∀ q, owned w' this = Some q → heap_after_destroy w this !! q = None)
        ∧ (∀ p, w_heap w' !! p = heap_after_destroy w this !! p
                ∨ owned w' this = Some p)
        ∧ frame w w' this this.
Proof.
  intros Hsa Hth H. open_world w.
  destruct (in_place (o_type (arg_object a))) eqn:Hin';
    open_contains H; unfold_spec; unfold frame; exec;
    (eexists; split; [reflexivity|]); simpl; exec; split_and!; try done;
    try (by intros; split; exec);
    try (eexists; split; [done|by exec]);
    try (intros p'; by left);
    try apply insert_fresh_lookup;
    try (intros q [= <-]; apply fresh_address);
    apply insert_lookup_or.
Qed.

Lemma binding_returns w w' this a :
  ctor_callable this a w = Ok tt w' ∨ assign_callable this a w = Ok tt w' →
  static_asserts (o_type (arg_object a)) = true ∧ arg_throws a = false.
Proof.
  unfold ctor_callable, assign_callable.
  destruct (static_asserts (o_type (arg_object a))); [|by intros [?|?]].
  intros E. split; [done|]. destruct (arg_throws a) eqn:Hth; [|done].
  exfalso. open_world w. destruct E as [E|E]; unfold_model; simpl in *.
  - rewrite lookup_insert_eq in E. simpl in E.
    rewrite Hth in E. by destruct (in_place _).
  - repeat (case_match; simplify_eq; simpl in * ); done.
Qed.

Lemma call_facts w l o z :
  holds w l o →
  ∃ w' r, call l z w = Ok r w'
        ∧ holds w' l (set_state o (fst (invoke (o_type o) (o_state o) z)))
        ∧ owned w' l = owned w l
        ∧ (∀ p, w_heap w' !! p = w_heap w !! p ∨ owned w l = Some p)
        ∧ frame w w' l l.
Proof.
  intros [Hv Hs]. open_world w. unfold_spec; unfold frame.
  destruct (in_place (o_type o)) eqn:Hin; [|destruct Hs as (p & Hs & Hp)];
    destruct NoExcept eqn:HN, NDEBUG eqn:HD; exec;
    (do 2 eexists; split; [reflexivity|]); simpl; exec; split_and!; try done;
    try (by intros; split; exec);
    try (eexists; split; [done|by exec]);
    try (intros p'; by left);
    (intros p'; destruct (decide (p = p')) as [->|?];
       [by right|left; by rewrite lookup_insert_ne]).
Qed.

(** A step on one container that may destroy what the container owned and
    allocate anew. *)
Lemma local_step_single w w' l :
  (∀ v, w_vtable w' !! l = Some v → ∃ x, contains w' l x) →
  (∀ p, w_heap w' !! p = w_heap w !! p ∨ w_heap w !! p = None
        ∨ owned w l = Some p) →
  (∀ q, owned w' l = Some q → w_heap w !! q = None ∨ owned w l = Some q) →
  frame w w' l l →
  local_step [l] w w'.
Proof.
  intros Hc Hh Ho Hf. split_and!.
  - by apply frame_to_list.
  - intros l' v Hl. apply list_elem_of_singleton in Hl as ->. apply Hc.
  - intros p. destruct (Hh p) as [E|[E|E]]; [by left|by right; left|].
    right; right. exists l. split; [by left|done].
  - intros l' q Hl. apply list_elem_of_singleton in Hl as ->. intros E.
    destruct (Ho q E) as [E'|E']; [by left|].
    right. exists l. split; [by left|done].
  - intros l1 l2 p Hl1 Hl2.
    apply list_elem_of_singleton in Hl1 as ->.
    by apply list_elem_of_singleton in Hl2 as ->.
Qed.

Lemma heap_after_destroy_none w l q :
  heap_after_destroy w l !! q = None → w_heap w !! q = None ∨ owned w l = Some q.
Proof.
  intros E. destruct (heap_after_destroy_lookup w l q) as [E'|E']; [|by right].
  left. by rewrite <- E'.
Qed.

Lemma local_step_rebind w w' l x :
  contains w' l x →
  (∀ p, w_heap w' !! p = heap_after_destroy w l !! p
        ∨ heap_after_destroy w l !! p = None) →
  (∀ q, owned w' l = Some q → heap_after_destroy w l !! q = None) →
  frame w w' l l →
  local_step [l] w w'.
Proof.
  intros Hc Hh Ho Hf. apply local_step_single; [by exists x| | |done].
  - intros p. destruct (Hh p) as [E|E].
    + rewrite E. destruct (heap_after_destroy_lookup w l p); [by left|by right; right].
    + right. by apply heap_after_destroy_none.
  - intros q E. by apply heap_after_destroy_none, Ho.
Qed.

Lemma ctor_callable_local_step w w' this a :
  ctor_callable this a w = Ok tt w' → local_step [this] w w'.
Proof.
  intros E. destruct (binding_returns w w' this a (or_introl E)) as [Hsa Hth].
  destruct (ctor_callable_facts w this a Hsa Hth) as (w1 & E1 & Hh & Hp & Ho & _ & Hf).
  rewrite E in E1. injection E1 as <-.
  apply local_step_single; [by exists (Some (arg_object a))| | |done].
  - intros p. destruct (Hp p) as [?|?]; [by left|by right; left].
  - intros q Hq. left. by apply Ho.
Qed.

Lemma assign_callable_local_step w w' this a y :
  contains w this y → assign_callable this a w = Ok tt w' → local_step [this] w w'.
Proof.
  intros Hy E. destruct (binding_returns w w' this a (or_intror E)) as [Hsa Hth].
  destruct (assign_callable_facts w this a y Hsa Hth Hy) as (w1 & E1 & Hh & Hp & Ho & _ & Hf).
  rewrite E in E1. injection E1 as <-.
  by apply (local_step_rebind _ _ _ (Some (arg_object a))).
Qed.

Lemma call_local_step w w' l x z r :
  contains w l x → call l z w = Ok r w' → local_step [l] w w'.
Proof.
  intros Hx E. destruct x as [o|]; simpl in Hx.
  - destruct (call_facts w l o z Hx) as (w1 & r1 & E1 & Hh & Ho & Hp & Hf).
    rewrite E in E1. injection E1 as <- <-.
    apply local_step_single; [by eexists (Some _)| | |done].
    + intros p. destruct (Hp p); [by left|by right; right].
    + intros q Hq. right. by rewrite <- Ho.
  - rewrite (call_empty w l z Hx) in E. by destruct NDEBUG, NoExcept.
Qed.

Lemma operator_bool_same w w' l r : operator_bool l w = Ok r w' → w' = w.
Proof.
  unfold operator_bool, get_vtable. simpl. unfold mbind, M_bind, bind. simpl.
  destruct (w_vtable w !! l) as [[v|]|]; [|done..]. by intros [= _ <-].
Qed.

Lemma store_inplace_in_place T :
  V = copyable_function → store_inplace T = in_place T.
Proof. intros HV. unfold in_place. by rewrite HV. Qed.

Lemma ctor_copy_facts w w' b a x :
  a ≠ b → contains w a x → ctor_copy b a w = Ok tt w' →
  contains w' b x ∧ w_heap w' = w_heap w ∧ owned w' b = None ∧ frame w w' b b.
Proof.
  intros Hne Hx. open_world w. unfold ctor_copy, copyable.
  destruct V eqn:HV; try done;
    open_contains Hx; unfold_spec; unfold frame; exec;
    rewrite ?(store_inplace_in_place _ HV); exec; try done;
    intros [= <-]; simpl; exec; split_and!; try done;
    by intros; split; exec.
Qed.

Lemma assign_copy_facts w w' b a y :
  a ≠ b → contains w b y → assign_copy b a w = Ok tt w' →
  ∃ x, contains w' b x
       ∧ (∀ p, w_heap w' !! p = heap_after_destroy w b !! p
               ∨ heap_after_destroy w b !! p = None)
       ∧ (∀ q, owned w' b = Some q → heap_after_destroy w b !! q = None)
       ∧ (∀ p, w_heap w' !! p = heap_after_destroy w b !! p ∨ owned w' b = Some p)
       ∧ frame w w' b b.
Proof.
  intros Hne Hy. open_world w. unfold assign_copy, copyable.
  destruct V eqn:HV; try done;
    open_contains Hy; unfold_spec; unfold frame; exec;
    rewrite ?(store_inplace_in_place _ HV); exec;
    destruct (st !! a) as [[|oa|pa]|] eqn:Ea; simpl; try done;
    try (destruct (decide (o_type oa = o_type o)) as [Hty|Hty]; simpl; try done);
    exec; intros [= <-]; simpl;
    try (exists None; simpl; exec; split_and!; try done;
         try (by eexists); try (intros p'; by left);
         by intros; split; exec);
    exists (Some oa); simpl; rewrite ?Hty; exec; split_and!; try done;
    try (by intros; split; exec);
    try (eexists; split; [done|by exec]);
    try (intros p'; by left);
    try apply insert_fresh_lookup;
    try (intros q [= <-]; apply fresh_address);
    try apply insert_lookup_or;
    by (unfold in_place in Hin; rewrite HV in Hin).
Qed.

Lemma ctor_copy_local_step w w' b a x :
  a ≠ b → contains w a x → ctor_copy b a w = Ok tt w' → local_step [b] w w'.
Proof.
  intros Hne Hx E.
  destruct (ctor_copy_facts w w' b a x Hne Hx E) as (Hb & Hh & Ho & Hf).
  apply local_step_single; [by exists x| | |done].
  - intros p. left. by rewrite Hh.
  - intros q. by rewrite Ho.
Qed.

Lemma assign_copy_local_step w w' b a y :
  a ≠ b → contains w b y → assign_copy b a w = Ok tt w' → local_step [b] w w'.
Proof.
  intros Hne Hy E.
  destruct (assign_copy_facts w w' b a y Hne Hy E) as (x & Hb & Hh & Ho & _ & Hf).
  by apply (local_step_rebind _ _ _ x).
Qed.

(** An operation that returns found a container at each operand it reads. *)
Lemma lives w l :
  well_formed w → is_Some (w_vtable w !! l) → ∃ x, contains w l x.
Proof. intros [Hc _] [v Hv]. by eapply Hc. Qed.

Ltac open_world_all := repeat match goal with w : world |- _ => open_world w end.

Ltac absent l :=
  let E := fresh "E" in
  destruct (w_vtable _ !! l) as [[?|]|] eqn:E; [by eexists|exfalso..];
  match goal with H : _ = Ok _ _ |- _ => revert H end;
  open_world_all; by exec.

Lemma dtor_operand w w' l : dtor l w = Ok tt w' → is_Some (w_vtable w !! l).
Proof. intros E. absent l. Qed.

Lemma assign_nullptr_operand w w' l :
  assign_nullptr l w = Ok tt w' → is_Some (w_vtable w !! l).
Proof. intros E. absent l. Qed.

Lemma assign_callable_operand w w' l a :
  assign_callable l a w = Ok tt w' → is_Some (w_vtable w !! l).
Proof.
  intros E.
  destruct (w_vtable w !! l) as [[?|]|] eqn:Ec; [by eexists|exfalso..];
    revert E; open_world w; unfold assign_callable;
    destruct (static_asserts _); by exec.
Qed.

Lemma call_operand w w' l z r : call l z w = Ok r w' → is_Some (w_vtable w !! l).
Proof.
  intros E.
  destruct (w_vtable w !! l) as [[?|]|] eqn:Ec; [by eexists|exfalso..];
    revert E; open_world w; destruct NoExcept eqn:HN; by exec.
Qed.

Lemma ctor_move_operand w w' d c :
  ctor_move d c w = Ok tt w' → is_Some (w_vtable w !! c).
Proof. intros E. absent c. Qed.

Lemma ctor_copy_operand w w' b a :
  ctor_copy b a w = Ok tt w' → is_Some (w_vtable w !! a).
Proof.
  intros E.
  destruct (w_vtable w !! a) as [[?|]|] eqn:Ec; [by eexists|exfalso..];
    revert E; open_world w; unfold ctor_copy;
    destruct copyable; by exec.
Qed.

Lemma assign_copy_operand w w' b a :
  assign_copy b a w = Ok tt w' → is_Some (w_vtable w !! b).
Proof.
  intros E.
  destruct (w_vtable w !! b) as [[?|]|] eqn:Ec; [by eexists|exfalso..];
    revert E; open_world w; unfold assign_copy;
    destruct copyable; by exec.
Qed.

Lemma swap_operand w w' a b :
  swap a b w = Ok tt w' → is_Some (w_vtable w !! a).
Proof. intros E. absent a. Qed.

Lemma assign_move_operand w w' d c :
  assign_move d c w = Ok tt w' → is_Some (w_vtable w !! d).
Proof.
  intros E.
  destruct (w_vtable w !! d) as [[?|]|] eqn:Ec; [by eexists|exfalso..];
    revert E; open_world w;
    destruct NDEBUG eqn:HD, (bool_decide (d ≠ c)) eqn:Hb; by exec.
Qed.

Lemma assign_move_source w w' d c y :
  c ≠ d → contains w d y → assign_move d c w = Ok tt w' →
  is_Some (w_vtable w !! c).
Proof.
  intros Hne Hy E.
  assert (Hb : bool_decide (d ≠ c) = true) by (apply bool_decide_eq_true; congruence).
  destruct (w_vtable w !! c) as [[?|]|] eqn:Ec; [by eexists|exfalso..];
    revert E; open_world w; open_contains Hy; unfold_spec;
    destruct NDEBUG eqn:HD; by exec.
Qed.

Lemma swap_source w w' a b x :
  a ≠ b → contains w a x → swap a b w = Ok tt w' → is_Some (w_vtable w !! b).
Proof.
  intros Hne Hx E.
  destruct (w_vtable w !! b) as [[?|]|] eqn:Ec; [by eexists|exfalso..];
    revert E; open_world w; open_contains Hx; unfold_spec; by exec.
Qed.

(** *** Every operation keeps the containers well formed *)

Lemma NoDup_pair (a b : loc) : NoDup [a; b] → a ≠ b.
Proof. intros H%NoDup_cons_1_1 ->. apply H. by left. Qed.

Lemma run_local_step op w w' :
  well_formed w → NoDup (operands op) → run op w = Ok tt w' →
  ∃ ls, local_step ls w w'.
Proof.
  intros Hwf Hnd E. destruct op; simpl in *;
    try (apply NoDup_pair in Hnd).
  - eexists. by eapply ctor_default_local_step.
  - eexists. by eapply ctor_default_local_step.
  - destruct (lives w other Hwf (ctor_copy_operand _ _ _ _ E)) as [x Hx].
    eexists. eapply ctor_copy_local_step; [|done..]. congruence.
  - destruct (lives w other Hwf (ctor_move_operand _ _ _ _ E)) as [x Hx].
    eexists. eapply ctor_move_local_step; [|done..]. congruence.
  - eexists. by eapply ctor_callable_local_step.
  - destruct (lives w this Hwf (dtor_operand _ _ _ E)) as [x Hx].
    eexists. by eapply dtor_local_step.
  - destruct (lives w this Hwf (assign_copy_operand _ _ _ _ E)) as [y Hy].
    eexists. eapply assign_copy_local_step; [|done..]. congruence.
  - destruct (lives w this Hwf (assign_move_operand _ _ _ _ E)) as [y Hy].
    assert (Hne : other ≠ this) by congruence.
    destruct (lives w other Hwf (assign_move_source _ _ _ _ _ Hne Hy E)) as [x Hx].
    eexists. by eapply assign_move_local_step.
  - destruct (lives w this Hwf (assign_callable_operand _ _ _ _ E)) as [y Hy].
    eexists. by eapply assign_callable_local_step.
  - destruct (lives w this Hwf (assign_nullptr_operand _ _ _ E)) as [y Hy].
    eexists. by eapply assign_nullptr_local_step.
  - unfold mbind, M_bind, bind in E.
    destruct (call this x w) as [r w1| | | | |] eqn:Ec; try done.
    injection E as <-.
    destruct (lives w this Hwf (call_operand _ _ _ _ _ Ec)) as [y Hy].
    eexists. by eapply call_local_step.
  - unfold mbind, M_bind, bind in E.
    destruct (operator_bool this w) as [r w1| | | | |] eqn:Ec; try done.
    injection E as <-. rewrite (operator_bool_same _ _ _ _ Ec).
    exists []. by apply local_step_same.
  - destruct (lives w this Hwf (swap_operand _ _ _ _ E)) as [x Hx].
    destruct (lives w other Hwf (swap_source _ _ _ _ _ Hnd Hx E)) as [y Hy].
    eexists. by eapply swap_local_step.
Qed.

(** X12. A program over the member functions keeps the containers well
    formed: when every operation names distinct containers and the program
    returns, every container is still empty or holds a payload (the object
    behind its pointer is alive), and no two containers own the same object
    of the free store. *)
Theorem operations_keep_containers_well_formed ops : ∀ w w',
  well_formed w → Forall (λ op, NoDup (operands op)) ops →
  run_all ops w = Ok tt w' → well_formed w'.
Proof.
  induction ops as [|op ops IH]; intros w w' Hwf Hnd E; simpl in E.
  - by injection E as <-.
  - apply Forall_cons in Hnd as [Hop Hnd].
    unfold mbind, M_bind, bind in E.
    destruct (run op w) as [[] w1| | | | |] eqn:E1; try done.
    destruct (run_local_step op w w1 Hwf Hop E1) as [ls Hls].
    eapply IH; [|done|done]. by eapply well_formed_step.
Qed.

(** *** No operation leaks *)

Lemma no_leak_step ls w w' :
  no_leak w → local_step ls w w' → hands_over ls w w' → no_leak w'.
Proof.
  intros Hnl (Hf & _ & Hh & _ & _) Ho p Hp.
  destruct (Hh p) as [E|[E|E]].
  - rewrite E in Hp. destruct (Hnl p Hp) as [l Hl].
    destruct (decide (l ∈ ls)) as [Hin|Hin].
    + destruct (Ho p) as (l' & _ & Hl'); [by rewrite E|right; by exists l|by exists l'].
    + exists l. destruct (Hf l Hin) as [Ev Es]. by rewrite (owned_frame w w' l Ev Es).
  - destruct (Ho p Hp (or_introl E)) as (l' & _ & Hl'). by exists l'.
  - destruct (Ho p Hp (or_intror E)) as (l' & _ & Hl'). by exists l'.
Qed.

Lemma hands_over_same ls w : hands_over ls w w.
Proof.
  intros p [o Hp] [E|(l & Hl & Ho)]; [congruence|]. by exists l.
Qed.

Lemma heap_after_destroy_some w l p :
  is_Some (heap_after_destroy w l !! p) →
  is_Some (w_heap w !! p) ∧ owned w l ≠ Some p.
Proof.
  unfold heap_after_destroy. destruct (owned w l) as [q|] eqn:Ho; [|done].
  destruct (decide (q = p)) as [->|Hne].
  - rewrite lookup_delete_eq. by intros [? ?].
  - rewrite lookup_delete_ne by done. split; [done|congruence].
Qed.

Lemma hands_over_single w w' l :
  (∀ p, w_heap w' !! p = heap_after_destroy w l !! p ∨ owned w' l = Some p) →
  hands_over [l] w w'.
Proof.
  intros Hh p Hp Hq. destruct (Hh p) as [E|E]; [|exists l; split; [by left|done]].
  rewrite E in Hp. apply heap_after_destroy_some in Hp as [[o Hp] Hn].
  destruct Hq as [Hq|(l0 & Hl0 & Hq)]; [congruence|].
  apply list_elem_of_singleton in Hl0 as ->. done.
Qed.

Lemma hands_over_move w w' c d :
  w_heap w' = heap_after_destroy w d → owned w' d = owned w c →
  hands_over [d; c] w w'.
Proof.
  intros Hh Ho p Hp Hq. rewrite Hh in Hp.
  apply heap_after_destroy_some in Hp as [[o Hp] Hn].
  destruct Hq as [Hq|(l0 & Hl0 & Hq)]; [congruence|].
  apply elem_of_cons in Hl0 as [->|Hl0]; [done|].
  apply list_elem_of_singleton in Hl0 as ->.
  exists d. split; [by left|congruence].
Qed.

Lemma hands_over_swap w w' a b :
  w_heap w' = w_heap w → owned w' a = owned w b → owned w' b = owned w a →
  hands_over [a; b] w w'.
Proof.
  intros Hh Ha Hb p Hp Hq. rewrite Hh in Hp. destruct Hp as [o Hp].
  destruct Hq as [Hq|(l0 & Hl0 & Hq)]; [congruence|].
  apply elem_of_cons in Hl0 as [->|Hl0].
  - exists b. split; [right; by left|congruence].
  - apply list_elem_of_singleton in Hl0 as ->.
    exists a. split; [by left|congruence].
Qed.

Lemma heap_after_destroy_unowned w l :
  owned w l = None → heap_after_destroy w l = w_heap w.
Proof. intros E. unfold heap_after_destroy. by rewrite E. Qed.

Lemma owned_absent w l : w_vtable w !! l = None → owned w l = None.
Proof. intros E. unfold owned. by rewrite E. Qed.

Lemma run_hands_over op w w' :
  well_formed w → NoDup (operands op) →
  Forall (λ l, w_vtable w !! l = None) (constructed op) →
  run op w = Ok tt w' →
  ∃ ls, local_step ls w w' ∧ hands_over ls w w'.
Proof.
  intros Hwf Hnd Hnew E. destruct op; simpl in *;
    try (apply NoDup_pair in Hnd);
    try (apply Forall_singleton, owned_absent in Hnew).
  - exists [this]. split; [by eapply ctor_default_local_step|].
    apply hands_over_single. intros p. left.
    rewrite (heap_after_destroy_unowned _ _ Hnew).
    unfold ctor_default, begin_lifetime in E. by injection E as <-.
  - exists [this]. split; [by eapply ctor_default_local_step|].
    apply hands_over_single. intros p. left.
    rewrite (heap_after_destroy_unowned _ _ Hnew).
    unfold ctor_nullptr, begin_lifetime in E. by injection E as <-.
  - destruct (lives w other Hwf (ctor_copy_operand _ _ _ _ E)) as [x Hx].
    assert (Hne : other ≠ this) by congruence.
    exists [this]. split; [by eapply ctor_copy_local_step|].
    destruct (ctor_copy_facts w w' this other x Hne Hx E) as (_ & Hh & _ & _).
    apply hands_over_single. intros p. left.
    by rewrite (heap_after_destroy_unowned _ _ Hnew), Hh.
  - destruct (lives w other Hwf (ctor_move_operand _ _ _ _ E)) as [x Hx].
    assert (Hne : other ≠ this) by congruence.
    exists [this; other]. split; [by eapply ctor_move_local_step|].
    destruct (ctor_move_contains w other this x Hne Hx) as (w1 & E1 & _ & _ & _ & Hh & _).
    rewrite E in E1. injection E1 as <-.
    destruct (ctor_move_owned w other this x Hne Hx) as (w1 & E1 & Ho).
    rewrite E in E1. injection E1 as <-.
    apply hands_over_move; [|done].
    by rewrite (heap_after_destroy_unowned _ _ Hnew).
  - exists [this]. split; [by eapply ctor_callable_local_step|].
    destruct (binding_returns w w' this a (or_introl E)) as [Hsa Hth].
    destruct (ctor_callable_facts w this a Hsa Hth) as (w1 & E1 & _ & _ & _ & Hp & _).
    rewrite E in E1. injection E1 as <-.
    apply hands_over_single. by rewrite (heap_after_destroy_unowned _ _ Hnew).
  - destruct (lives w this Hwf (dtor_operand _ _ _ E)) as [x Hx].
    exists [this]. split; [by eapply dtor_local_step|].
    destruct (dtor_contains w this x Hx) as (w1 & E1 & _ & _ & Hh & _).
    rewrite E in E1. injection E1 as <-.
    apply hands_over_single. intros p. left. by rewrite Hh.
  - destruct (lives w this Hwf (assign_copy_operand _ _ _ _ E)) as [y Hy].
    assert (Hne : other ≠ this) by congruence.
    exists [this]. split; [by eapply assign_copy_local_step|].
    destruct (assign_copy_facts w w' this other y Hne Hy E) as (x & _ & _ & _ & Hp & _).
    by apply hands_over_single.
  - destruct (lives w this Hwf (assign_move_operand _ _ _ _ E)) as [y Hy].
    assert (Hne : other ≠ this) by congruence.
    destruct (lives w other Hwf (assign_move_source _ _ _ _ _ Hne Hy E)) as [x Hx].
    exists [this; other]. split; [by eapply assign_move_local_step|].
    pose proof (separate_well_formed w other this Hwf Hne) as Hsep.
    destruct (assign_move_contains w other this x y Hne Hx Hy Hsep)
      as (w1 & E1 & _ & _ & _ & Hh & _).
    rewrite E in E1. injection E1 as <-.
    destruct (assign_move_owned w other this x y Hne Hx Hy Hsep) as (w1 & E1 & Ho).
    rewrite E in E1. injection E1 as <-.
    by apply hands_over_move.
  - destruct (lives w this Hwf (assign_callable_operand _ _ _ _ E)) as [y Hy].
    exists [this]. split; [by eapply assign_callable_local_step|].
    destruct (binding_returns w w' this a (or_intror E)) as [Hsa Hth].
    destruct (assign_callable_facts w this a y Hsa Hth Hy) as (w1 & E1 & _ & _ & _ & Hp & _).
    rewrite E in E1. injection E1 as <-.
    by apply hands_over_single.
  - destruct (lives w this Hwf (assign_nullptr_operand _ _ _ E)) as [y Hy].
    exists [this]. split; [by eapply assign_nullptr_local_step|].
    destruct (assign_nullptr_contains w this y Hy) as (w1 & E1 & _ & _ & Hh & _).
    rewrite E in E1. injection E1 as <-.
    apply hands_over_single. intros p. left. by rewrite Hh.
  - unfold mbind, M_bind, bind in E.
    destruct (call this x w) as [r w1| | | | |] eqn:Ec; try done.
    injection E as <-.
    destruct (lives w this Hwf (call_operand _ _ _ _ _ Ec)) as [y Hy].
    exists [this]. split; [by eapply call_local_step|].
    destruct y as [o|]; simpl in Hy;
      [|rewrite (call_empty w this x Hy) in Ec; by destruct NDEBUG, NoExcept].
    destruct (call_facts w this o x Hy) as (w2 & r2 & E2 & _ & Ho & Hp & _).
    rewrite Ec in E2. injection E2 as <- <-.
    intros p Hq [Hn|(l0 & Hl0 & Hl)].
    + destruct (Hp p) as [E'|E']; [rewrite E', Hn in Hq; by destruct Hq|].
      exists this. split; [by left|by rewrite Ho].
    + apply list_elem_of_singleton in Hl0 as ->.
      exists this. split; [by left|by rewrite Ho].
  - unfold mbind, M_bind, bind in E.
    destruct (operator_bool this w) as [r w1| | | | |] eqn:Ec; try done.
    injection E as <-. rewrite (operator_bool_same _ _ _ _ Ec).
    exists []. split; [by apply local_step_same|apply hands_over_same].
  - destruct (lives w this Hwf (swap_operand _ _ _ _ E)) as [x Hx].
    destruct (lives w other Hwf (swap_source _ _ _ _ _ Hnd Hx E)) as [y Hy].
    exists [this; other]. split; [by eapply swap_local_step|].
    destruct (swap_contains w this other x y Hnd Hx Hy)
      as (w1 & E1 & _ & _ & _ & Hh & _).
    rewrite E in E1. injection E1 as <-.
    destruct (swap_owned w this other x y Hnd Hx Hy) as (w1 & E1 & Hoa & Hob).
    rewrite E in E1. injection E1 as <-.
    by apply hands_over_swap.
Qed.

Lemma no_containers_no_owner w l : w_vtable w = ∅ → owned w l = None.
Proof. intros E. unfold owned. by rewrite E, lookup_empty. Qed.

(** X13. No operation leaks: in a program whose operations name distinct
    containers and whose constructors run where no container lives yet,
    every object of the free store stays owned by a container; when the
    program has destroyed every container, the free store is empty. *)
Theorem programs_leak_nothing ops : ∀ w w',
  well_formed w → no_leak w → proper ops w = true →
  run_all ops w = Ok tt w' →
  well_formed w' ∧ no_leak w' ∧ (w_vtable w' = ∅ → w_heap w' = ∅).
Proof.
  induction ops as [|op ops IH]; intros w w' Hwf Hnl Hp E; simpl in E.
  - injection E as <-. split_and!; [done..|].
    intros Hv. apply map_empty. intros p.
    destruct (w_heap w !! p) as [o|] eqn:Ho; [|done].
    destruct (Hnl p) as [l Hl]; [by eexists|].
    by rewrite (no_containers_no_owner w l Hv) in Hl.
  - simpl in Hp. apply andb_true_iff in Hp as [Hp Hrest].
    apply andb_true_iff in Hp as [Hnd Hnew].
    apply bool_decide_eq_true in Hnd.
    assert (Hnew' : Forall (λ l, w_vtable w !! l = None) (constructed op)).
    { apply Forall_forall. intros l Hl.
      apply Is_true_true_2, forallb_True in Hnew.
      rewrite Forall_forall in Hnew. specialize (Hnew l Hl).
      by apply bool_decide_unpack in Hnew. }
    unfold mbind, M_bind, bind in E.
    destruct (run op w) as [[] w1| | | | |] eqn:E1; try done.
    destruct (run_hands_over op w w1 Hwf Hnd Hnew' E1) as (ls & Hls & Hho).
    eapply IH; [| |done|done].
    + by eapply well_formed_step.
    + by eapply no_leak_step.
Qed.

(** *** Operations on a well-formed state are defined *)




(** *** What the assertion of the move assignment guards *)
(** X15. What [assert(this != &other)] in the move assignment guards: with
    assertions compiled out, a container move-assigned from itself destroys
    its payload first and then moves from its own storage. With the
    payload in place that is undefined; with the payload on the free store
    the container keeps its table and its pointer, and the pointer
    dangles. With assertions the call aborts. *)
Theorem self_move_assignment w l o :
  holds w l o →
  if NDEBUG then
    if in_place (o_type o) then assign_move l l w = UB
    else ∃ p w', assign_move l l w = Ok tt w'
                 ∧ w_vtable w' !! l = Some (Some (callable_vtable (o_type o)))
                 ∧ w_storage w' !! l = Some (Allocated p)
                 ∧ w_heap w' !! p = None
                 ∧ w_ints w' = release o (w_ints w)
  else assign_move l l w = AssertFail.
Proof.
  intros [Hv Hs]. open_world w.
  assert (Hb : bool_decide (l ≠ l) = false) by (by apply bool_decide_eq_false; intros ?).
  destruct NDEBUG eqn:HD.
  - destruct (in_place (o_type o)) eqn:Hin; [|destruct Hs as (p & Hs & Hp)];
      unfold_spec; exec; try done.
    all: exists p; eexists; split; [reflexivity|]; simpl; exec.
    all: split_and!; try done; apply lookup_delete_eq.
  - by exec.
Qed.

(** *** The observers *)

(** X21. The three observers report what the container holds and change
    nothing: [operator bool] and [!= nullptr] answer whether it holds a
    payload, [== nullptr] answers the opposite. *)
Theorem observers_report_contents w l x :
  contains w l x →
  operator_bool l w = Ok (bool_decide (is_Some x)) w
  ∧ eq_nullptr l w = Ok (negb (bool_decide (is_Some x))) w
  ∧ ne_nullptr l w = Ok (bool_decide (is_Some x)) w.
Proof.
  intros H. open_world w. destruct x as [o|]; simpl in H.
  - destruct H as [Hv _].
    rewrite (bool_decide_eq_true_2 (is_Some (Some o))) by (by eexists).
    by exec.
  - destruct H as [Hv _].
    rewrite (bool_decide_eq_false_2 (is_Some (@None object))) by (by intros [? ?]).
    by exec.
Qed.

End Owning.

(** ** The claims about the non-owning wrappers *)

(** C8 (amended). [function_ptr] stores the value of a function pointer as
    its target when the pointer is passed as an rvalue, so that [Callable] is
    a pointer type; [function_ref] does not accept such an argument. Whatever
    else they are bound to (a function, a functor, a named pointer
    variable), both store [std::addressof(callable)]: for a function that is
    the function's address. *)
Theorem function_pointer_binding NoExcept at_ value f nothrow :
  function_ptr.ctor_callable NoExcept (arg_function_pointer rvalue at_ value nothrow)
  = (if implb NoExcept nothrow
     then Some {| function_ptr.m_target := value;
                  function_ptr.m_invoke_target := Some (t_pointer t_function) |}
     else None)
  ∧ function_ref.ctor_callable NoExcept (arg_function_pointer rvalue at_ value nothrow)
    = None
  ∧ function_ptr.ctor_callable NoExcept (arg_function f nothrow)
    = (if implb NoExcept nothrow
       then Some {| function_ptr.m_target := f;
                    function_ptr.m_invoke_target := Some (t_pointer t_function) |}
       else None)
  ∧ function_ref.ctor_callable NoExcept (arg_function f nothrow)
    = (if implb NoExcept nothrow
       then Some {| function_ref.m_invoke_target := t_pointer t_function;
                    function_ref.m_target := f |}
       else None)
  ∧ (∀ a r, function_ptr.assign NoExcept a = Some r →
       function_ptr.m_target r
       = if is_pointer_v (Callable a) then pointer_value a else addressof a)
  ∧ (∀ a r, function_ref.ctor_callable NoExcept a = Some r →
       is_pointer_v (Callable a) = false
       ∧ function_ref.m_target r = addressof a).
Proof.
  split_and!.
  - unfold function_ptr.ctor_callable, function_ptr.assign. simpl.
    by destruct (implb NoExcept nothrow).
  - done.
  - unfold function_ptr.ctor_callable, function_ptr.assign. simpl.
    by destruct (implb NoExcept nothrow).
  - unfold function_ref.ctor_callable. simpl. by destruct (implb NoExcept nothrow).
  - intros a r. unfold function_ptr.assign.
    destruct (implb _ _); [|done].
    by destruct (is_pointer_v (Callable a)); intros [= <-].
  - intros a r. unfold function_ref.ctor_callable, function_ref.enabled.
    destruct (is_pointer_v (Callable a)); [done|]. simpl.
    destruct (implb _ _); [|done]. by intros [= <-].
Qed.

(** C8 as stated fails for a function pointer: [function_ref] cannot be
    bound to one passed as an rvalue, and bound to a pointer variable both
    wrappers store the address of the variable, 200, not the pointer's
    value, 300. *)
Lemma function_pointer_variable_is_referenced :
  function_ref.ctor_callable false fp_rvalue = None
  ∧ function_ref.m_target <$> function_ref.ctor_callable false fp_lvalue = Some 200
  ∧ function_ptr.m_target <$> function_ptr.ctor_callable false fp_lvalue = Some 200
  ∧ pointer_value fp_lvalue = 300.
Proof. by vm_compute. Qed.

(** C3 as stated fails for [function_ptr]: its move constructor and move
    assignment are defaulted, and the source stays bound to its target. *)
Lemma function_ptr_move_keeps_source :
  ∃ c, function_ptr.ctor_callable false (arg_functor lvalue small_closure 400) = Some c
       ∧ function_ptr.operator_bool c = true
       ∧ function_ptr.operator_bool (snd (function_ptr.ctor_move c)) = true
       ∧ function_ptr.operator_bool
           (snd (function_ptr.assign_move function_ptr.ctor_default c)) = true.
Proof. eexists. by vm_compute. Qed.

(** ** Further properties of the non-owning wrappers *)

Section CallsFacts.

Variable NDEBUG : bool.
Variable invoke : callable_type → Z → Z → Z * Z.

Lemma guard_passes (p : addr) : p ≠ nullptr → NDEBUG || bool_decide (p ≠ nullptr) = true.
Proof. intros H. rewrite (bool_decide_eq_true_2 _ H). by destruct NDEBUG. Qed.

Lemma std_invoke_null t x mem : std_invoke invoke t nullptr x mem = Undefined.
Proof. by destruct t as [| |[]|]. Qed.

(** X16. A [function_ptr] is transparent: bound to a function, to a
    function pointer (passed as a value or as a named variable) or to a
    functor, and not null, a call through it does what invoking the
    argument directly does, with the same result and the same effect on
    the functor's state in the original object. *)
Theorem function_ptr_calls_its_target NoExcept a p x mem :
  function_ptr.assign NoExcept a = Some p →
  designates mem a →
  function_ptr.m_target p ≠ nullptr →
  function_ptr_call NDEBUG invoke p x mem = invoke_argument invoke a x mem.
Proof.
  unfold function_ptr.assign. destruct (implb _ _); [|done].
  destruct a as [f nt|[] at_ value nt|[] T at_]; simpl;
    intros [= <-] Hd Hn; simpl in *;
    unfold function_ptr_call, function_ptr_invoke_target; simpl;
    rewrite (guard_passes _ Hn); simpl; try done.
  by rewrite Hd.
Qed.

(** X17. A [function_ref] is transparent in the same way; it cannot be
    bound to a function pointer passed as a value. *)
Theorem function_ref_calls_its_target NoExcept a r x mem :
  function_ref.ctor_callable NoExcept a = Some r →
  designates mem a →
  function_ref.m_target r ≠ nullptr →
  function_ref_call NDEBUG invoke r x mem = invoke_argument invoke a x mem.
Proof.
  unfold function_ref.ctor_callable, function_ref.enabled.
  destruct a as [f nt|[] at_ value nt|[] T at_]; simpl; try done;
    (destruct (implb _ _); [|done]);
    intros [= <-] Hd Hn; simpl in *;
    unfold function_ref_call, function_ref_invoke_target; simpl;
    rewrite (guard_passes _ Hn); simpl; try done.
  by rewrite Hd.
Qed.

(** X18. Bound to a named function pointer variable, both wrappers point at
    the variable, not at the function: after the variable is assigned
    another function, a call through the wrapper invokes that function. A
    [function_ptr] bound to the pointer passed as a value keeps invoking
    the function it was given. *)
Theorem wrappers_follow_pointer_variable NoExcept at_ tmp_ f g nothrow p r q x mem :
  function_ptr.assign NoExcept (arg_function_pointer lvalue at_ f nothrow) = Some p →
  function_ref.ctor_callable NoExcept (arg_function_pointer lvalue at_ f nothrow) = Some r →
  function_ptr.assign NoExcept (arg_function_pointer rvalue tmp_ f nothrow) = Some q →
  at_ ≠ nullptr → f ≠ nullptr →
  function_ptr_call NDEBUG invoke p x (<[at_ := a_function_pointer g]> mem)
    = std_invoke invoke t_function g x (<[at_ := a_function_pointer g]> mem)
  ∧ function_ref_call NDEBUG invoke r x (<[at_ := a_function_pointer g]> mem)
    = std_invoke invoke t_function g x (<[at_ := a_function_pointer g]> mem)
  ∧ function_ptr_call NDEBUG invoke q x (<[at_ := a_function_pointer g]> mem)
    = std_invoke invoke t_function f x (<[at_ := a_function_pointer g]> mem).
Proof.
  unfold function_ptr.assign, function_ref.ctor_callable, function_ref.enabled.
  simpl. destruct (implb _ _); [|done].
  intros [= <-] [= <-] [= <-] Ha Hf.
  unfold function_ptr_call, function_ref_call, function_ptr_invoke_target,
    function_ref_invoke_target; simpl.
  rewrite !(guard_passes _ Ha), !(guard_passes _ Hf). simpl.
  assert (Hv : at_address (<[at_ := a_function_pointer g]> mem) at_
               = Some (a_function_pointer g)).
  { unfold at_address. rewrite (decide_False (P := at_ = nullptr)) by done.
    apply lookup_insert_eq. }
  by rewrite Hv.
Qed.

(** X19. A null [function_ptr]: default constructed, constructed from or
    assigned [nullptr], or bound to a null function pointer passed as a
    value. It tests false and compares equal to [nullptr], and a call
    fails the assertion of [operator()], or is undefined when assertions
    are compiled out. *)
Theorem null_function_ptr p :
  p = function_ptr.ctor_default ∨ p = function_ptr.ctor_nullptr
  ∨ (∃ q, p = function_ptr.assign_nullptr q)
  ∨ (∃ NoExcept at_ nothrow,
       function_ptr.assign NoExcept (arg_function_pointer rvalue at_ nullptr nothrow)
       = Some p) →
  function_ptr.operator_bool p = false
  ∧ function_ptr.eq_nullptr p = true
  ∧ function_ptr.ne_nullptr p = false
  ∧ ∀ x mem, function_ptr_call NDEBUG invoke p x mem
             = if NDEBUG then Undefined else Aborts.
Proof.
  intros H.
  assert (Hn : function_ptr.m_target p = nullptr).
  { destruct H as [->|[->|[[q ->]|(N & at_ & nt & H)]]]; try done.
    unfold function_ptr.assign in H. simpl in H.
    destruct (implb _ _); [|done]. by injection H as <-. }
  unfold function_ptr.operator_bool, function_ptr.eq_nullptr,
    function_ptr.ne_nullptr, function_ptr_call, function_ptr_invoke_target.
  rewrite Hn. split_and!; try done.
  intros x mem. destruct NDEBUG; simpl; [|done].
  destruct (function_ptr.m_invoke_target p) as [[]|]; try done.
  apply std_invoke_null.
Qed.

(** X20. The wrappers do not own their target: once the functor they were
    bound to is gone, a call through either is undefined, while the
    [function_ptr] still tests true. *)
Theorem wrappers_do_not_own NoExcept c T at_ p r x mem :
  function_ptr.assign NoExcept (arg_functor c T at_) = Some p →
  function_ref.ctor_callable NoExcept (arg_functor c T at_) = Some r →
  at_ ≠ nullptr →
  function_ptr.operator_bool p = true
  ∧ function_ptr_call NDEBUG invoke p x (delete at_ mem) = Undefined
  ∧ function_ref_call NDEBUG invoke r x (delete at_ mem) = Undefined.
Proof.
  unfold function_ptr.assign, function_ref.ctor_callable, function_ref.enabled.
  destruct c; simpl; (destruct (implb _ _); [|done]);
    intros [= <-] [= <-] Ha;
    unfold function_ptr.operator_bool, function_ptr_call, function_ref_call,
      function_ptr_invoke_target, function_ref_invoke_target; simpl;
    rewrite !(guard_passes _ Ha); simpl;
    unfold at_address; rewrite (decide_False (P := at_ = nullptr)) by done;
    (assert (Hd : delete at_ mem !! at_ = None) by apply lookup_delete_eq);
    rewrite Hd; (split_and!; [by apply bool_decide_eq_true|done..]).
Qed.

End CallsFacts.

(** ** The tests of the repository, on the model

    [move_only_function] and [inplace_copyable_function] with 8-byte
    pointers and assertions compiled in; [x] lives at 1 and [y] at 2. *)

Example test_ctor_move_small :
  ∃ w w',
    (ctor_callable 8 false move_only_function 1 (moved_in a_lambda);;
     ctor_move 8 move_only_function 2 1;;
     x ← operator_bool 1; y ← operator_bool 2; mret (x, y)) world_start
    = Ok (false, true) w
    ∧ count w a_value = 1%Z ∧ w_heap w = ∅
    ∧ (dtor 8 move_only_function 2;; dtor 8 move_only_function 1) w = Ok tt w'
    ∧ count w' a_value = 0%Z.
Proof. do 2 eexists. by vm_compute. Qed.

Example test_ctor_move_large :
  ∃ w w',
    (ctor_callable 8 false move_only_function 1 (moved_in b_lambda);;
     ctor_move 8 move_only_function 2 1;;
     x ← operator_bool 1; y ← operator_bool 2; mret (x, y)) world_start
    = Ok (false, true) w
    ∧ count w b_value = 1%Z ∧ size (w_heap w) = 1
    ∧ (dtor 8 move_only_function 2;; dtor 8 move_only_function 1) w = Ok tt w'
    ∧ count w' b_value = 0%Z ∧ w_heap w' = ∅.
Proof. do 2 eexists. by vm_compute. Qed.

Example test_assign_nullptr_large :
  ∃ w,
    (ctor_callable 8 false move_only_function 1 (moved_in b_lambda);;
     r ← call 8 false constant_body false move_only_function 1 0;
     assign_nullptr 8 move_only_function 1;;
     x ← operator_bool 1; mret (r, x)) world_start
    = Ok (98%Z, false) w
    ∧ count w b_value = 0%Z ∧ w_heap w = ∅.
Proof. eexists. by vm_compute. Qed.

Example test_assign_move_small_large :
  ∃ w w',
    (ctor_callable 8 false move_only_function 1 (moved_in a_lambda);;
     ctor_callable 8 false move_only_function 2 (moved_in b_lambda);;
     assign_move 8 false move_only_function 2 1;;
     x ← operator_bool 1; y ← operator_bool 2;
     r ← call 8 false constant_body false move_only_function 2 0;
     mret (x, y, r)) world_start
    = Ok (false, true, 97%Z) w
    ∧ count w a_value = 1%Z ∧ count w b_value = 0%Z
    ∧ (dtor 8 move_only_function 2;; dtor 8 move_only_function 1) w = Ok tt w'
    ∧ count w' a_value = 0%Z ∧ count w' b_value = 0%Z.
Proof. do 2 eexists. by vm_compute. Qed.

Example test_swap_move_small_large :
  ∃ w w',
    (ctor_callable 8 false move_only_function 1 (moved_in a_lambda);;
     ctor_callable 8 false move_only_function 2 (moved_in b_lambda);;
     swap 8 move_only_function 1 2;;
     rx ← call 8 false constant_body false move_only_function 1 0;
     ry ← call 8 false constant_body false move_only_function 2 0;
     mret (rx, ry)) world_start
    = Ok (98%Z, 97%Z) w
    ∧ count w a_value = 1%Z ∧ count w b_value = 1%Z
    ∧ (dtor 8 move_only_function 2;; dtor 8 move_only_function 1) w = Ok tt w'
    ∧ count w' a_value = 0%Z ∧ count w' b_value = 0%Z.
Proof. do 2 eexists. by vm_compute. Qed.

Example test_swap_empty :
  ∃ w,
    (ctor_callable 8 false (inplace_copyable_function 8) 1 (moved_in a_lambda);;
     ctor_default 2;;
     swap 8 (inplace_copyable_function 8) 1 2;;
     x ← operator_bool 1; y ← operator_bool 2; mret (x, y)) world_start
    = Ok (false, true) w
    ∧ count w a_value = 1%Z.
Proof. eexists. by vm_compute. Qed.

(** A copy made by the copy constructor of a payload stored in place is
    independent: calling the copy, whose body counts its calls, leaves the
    original's answer as it was, and the resource is counted twice. *)
Example test_copy_in_place :
  ∃ w,
    (ctor_callable 8 false copyable_function 1 (moved_in a_lambda);;
     ctor_copy 8 copyable_function 2 1;;
     call 8 false counting_body false copyable_function 2 0;;
     call 8 false counting_body false copyable_function 2 0;;
     ry ← call 8 false counting_body false copyable_function 2 0;
     rx ← call 8 false counting_body false copyable_function 1 0;
     mret (rx, ry)) world_start
    = Ok (97%Z, 99%Z) w
    ∧ count w a_value = 2%Z.
Proof. eexists. by vm_compute. Qed.

(** ** The claims at concrete inputs *)

Ltac compute_goal :=
  vm_compute;
  repeat first [ reflexivity | exact I | split | discriminate | eexists
               | left; reflexivity | right; discriminate ].

Lemma assign_copy_keeps_own_table_witness :
  assign_copy 8 copyable_function 2 1 world_small = Ok tt world_small
  ∧ operator_bool 2 world_small = Ok false world_small
  ∧ operator_bool 1 world_small = Ok true world_small
  ∧ w_vtable world_small !! 2 ≠ w_vtable world_small !! 1.
Proof.
  apply (assign_copy_keeps_own_table 8 copyable_function world_small 2 1 a_lambda);
    compute_goal.
Defined.

Lemma copy_of_heap_stored_reads_buffer_witness :
  m_copy 8 copyable_function (callable_vtable large_closure) (m_storage 2)
    (m_storage 1) world_large = UB
  ∧ ctor_copy 8 copyable_function 3 1 world_large = UB.
Proof.
  apply (copy_of_heap_stored_reads_buffer 8 copyable_function world_large 3 1
           b_lambda (m_storage 2)); compute_goal.
Defined.

(** C4 as stated fails: nothing guards [swap(a, a)]. With a payload stored
    in place the second of the three moves reads the storage whose object
    the first one has moved out and destroyed. *)
Lemma self_swap_is_not_guarded :
  swap 8 copyable_function 1 1 world_small = UB
  ∧ swap 8 (inplace_move_only_function 8) 1 1 world_small = UB.
Proof. by vm_compute. Qed.

(** C5 as stated fails: when the construction of the payload throws in the
    converting assignment, the table pointer is already that of the new,
    heap-stored type, while the storage holds no pointer and nothing was
    allocated. *)
Lemma table_is_set_before_payload :
  ∃ w1, assign_callable_body 8 copyable_function 2 throwing_argument world_small
        = Throw payload_exception w1
        ∧ w_vtable w1 !! 2 = Some (Some (callable_vtable large_closure))
        ∧ w_storage w1 !! 2 = Some Indeterminate
        ∧ w_heap w1 = ∅.
Proof. eexists. by vm_compute. Qed.

(** C6 as stated fails when [assert] is compiled in: invoking an empty
    container of a throwing signature aborts at the assertion and throws no
    [std::bad_function_call]. *)
Lemma empty_call_fails_assertion :
  call 8 false counting_body false copyable_function 2 5 world_small = AssertFail
  ∧ call 8 false counting_body true copyable_function 2 5 world_small = AssertFail.
Proof. by vm_compute. Qed.

Lemma move_leaves_source_empty_witness :
  ctor_callable 8 false move_only_function 1 (moved_in a_lambda) world_start
  = Ok tt world_alone
  ∧ unused world_alone 2
  ∧ (∃ w', ctor_move 8 move_only_function 2 1 world_alone = Ok tt w'
           ∧ moved 8 false counting_body false move_only_function world_alone w' 1 2
               a_lambda
           ∧ w_ints w' = w_ints world_alone
           ∧ w_heap w' = ∅)
  ∧ (∃ w', move_chain 8 move_only_function 1 [3; 4; 5] world_alone = Ok 5 w'
           ∧ holds 8 move_only_function w' 5 a_lambda
           ∧ w_ints w' = w_ints world_alone)
  ∧ (∃ w', assign_move 8 false move_only_function 2 1 world_both = Ok tt w'
           ∧ moved 8 false counting_body false move_only_function world_both w' 1 2
               a_lambda
           ∧ w_ints w' = {[ a_value := 1%Z; b_value := 0%Z ]}).
Proof.
  assert (Hc1 : holds 8 move_only_function world_alone 1 a_lambda) by compute_goal.
  assert (Hc2 : holds 8 move_only_function world_both 1 a_lambda) by compute_goal.
  assert (Hd : contains 8 move_only_function world_both 2 (Some b_lambda))
    by compute_goal.
  assert (Hs : separate 8 move_only_function world_both 1 2) by compute_goal.
  assert (Hn : 1 ≠ 2) by (intros E; discriminate E).
  assert (Hnd : NoDup [1; 3; 4; 5]) by (apply (bool_decide_unpack _); vm_compute; exact I).
  assert (Hnd' : NoDup [1]) by (apply (bool_decide_unpack _); vm_compute; exact I).
  split; [vm_compute; reflexivity|].
  split; [vm_compute; split; reflexivity|].
  destruct (move_leaves_source_empty 8 false counting_body false move_only_function
              world_alone 1 2 a_lambda [3; 4; 5] Hn Hc1 Hnd)
    as (H1 & _ & (w3 & E3 & Hh3 & _ & _ & Hi3)).
  destruct (move_leaves_source_empty 8 false counting_body false move_only_function
              world_both 1 2 a_lambda [] Hn Hc2 Hnd')
    as (_ & H2 & _).
  split; [exact H1|].
  split; [exists w3; split; [exact E3|]; split; [exact Hh3|exact Hi3]|].
  exact (H2 (Some b_lambda) Hd Hs).
Defined.

Lemma swap_exchanges_and_restores_witness :
  ∃ w1 w2,
    swap 8 copyable_function 1 2 world_both = Ok tt w1
    ∧ contains 8 copyable_function w1 1 (Some b_lambda)
    ∧ contains 8 copyable_function w1 2 (Some a_lambda)
    ∧ swap 8 copyable_function 1 2 w1 = Ok tt w2
    ∧ contains 8 copyable_function w2 1 (Some a_lambda)
    ∧ contains 8 copyable_function w2 2 (Some b_lambda)
    ∧ w_ints w2 = w_ints world_both.
Proof.
  destruct (swap_exchanges_and_restores 8 false counting_body false copyable_function
              world_both 1 2 (Some a_lambda) (Some b_lambda))
    as (w1 & w2 & ? & ? & ? & _ & _ & _ & _ & ? & ? & ? & ? & _).
  - discriminate.
  - compute_goal.
  - compute_goal.
  - exists w1, w2. by split_and!.
Defined.

Lemma binding_sets_table_first_witness :
  (∃ w1, ctor_callable_body 8 copyable_function 3 throwing_argument world_small
         = Throw payload_exception w1
         ∧ w_vtable w1 !! 3 = Some (Some (callable_vtable large_closure))
         ∧ w_storage w1 !! 3 = Some Indeterminate)
  ∧ ctor_callable 8 false copyable_function 3 throwing_argument world_small
    = Throw payload_exception world_small
  ∧ (∃ w0 w1, assign_nullptr 8 copyable_function 1 world_small = Ok tt w0
         ∧ set_vtable 1 (callable_vtable large_closure) w0 = Ok tt w1
         ∧ assign_callable_body 8 copyable_function 1 throwing_argument world_small
           = Throw payload_exception w1)
  ∧ assign_callable 8 false copyable_function 1 throwing_argument world_small
    = Terminate.
Proof.
  apply (binding_sets_table_first 8 false copyable_function world_small 1 3
           throwing_argument (Some a_lambda)); compute_goal.
Defined.

Lemma empty_table_operations_witness :
  m_call 8 counting_body false copyable_function null_vtable (m_storage 2) 5 world_small
  = Throw bad_function_call world_small
  ∧ m_dtor 8 copyable_function null_vtable (m_storage 2) world_small = Ok tt world_small
  ∧ m_move 8 copyable_function null_vtable temp (m_storage 2) world_small
    = Ok tt world_small
  ∧ m_copy 8 copyable_function null_vtable temp (m_storage 2) world_small
    = Ok tt world_small
  ∧ call 8 true counting_body false copyable_function 2 5 world_small
    = Throw bad_function_call world_small.
Proof.
  apply (empty_table_operations 8 true counting_body false copyable_function
           world_small 2 (m_storage 2) temp 5); compute_goal.
Defined.

Lemma heap_fallback_storage_policy_witness :
  store_inplace 8 large_closure = false
  ∧ capacity 8 = 16
  ∧ ∃ w', ctor_callable 8 false move_only_function 3 plain_argument world_large = Ok tt w'
          ∧ ∃ q, q ≠ nullptr ∧ w_heap world_large !! q = None
                 ∧ w_storage w' !! 3 = Some (Allocated q)
                 ∧ w_heap w' = <[q := b_lambda]> (w_heap world_large).
Proof.
  destruct (heap_fallback_storage_policy 8 false move_only_function world_large 3
              plain_argument (m_storage 2) (m_storage 1) 50)
    as (_ & Hc & _ & (w' & E & Hs) & _).
  - by right.
  - reflexivity.
  - reflexivity.
  - split; [reflexivity|]. split; [exact Hc|]. exists w'. split; [exact E|]. exact Hs.
Defined.

Lemma table_pointer_never_null_witness :
  never_null world_small_nulled
  ∧ w_vtable world_small_nulled !! 1 = Some (Some null_vtable).
Proof.
  apply (table_pointer_never_null 8 false counting_body false copyable_function
           (op_assign_nullptr 1) world_small world_small_nulled).
  - apply (bool_decide_unpack _). by vm_compute.
  - by vm_compute.
Defined.

Lemma null_assignment_destroys_once_witness :
  ∃ w1 w2,
    assign_nullptr 8 copyable_function 1 world_large = Ok tt w1
    ∧ w_ints w1 = {[ b_value := 0%Z ]}
    ∧ w_heap w1 = ∅
    ∧ eq_nullptr 1 w1 = Ok true w1
    ∧ dtor 8 copyable_function 1 w1 = Ok tt w2
    ∧ w_ints w2 = w_ints w1
    ∧ w_heap w2 = w_heap w1.
Proof.
  destruct (null_assignment_destroys_once 8 copyable_function world_large 1 b_lambda)
    as (w1 & w2 & ? & Hi & _ & Hh & ? & _ & ? & ? & ?).
  - compute_goal.
  - exists w1, w2. by split_and!.
Defined.

(** ** The further properties at concrete inputs *)

Lemma destructor_releases_payload_witness :
  ∃ w', dtor 8 copyable_function 1 world_large = Ok tt w'
        ∧ unused w' 1
        ∧ w_ints w' = {[ b_value := 0%Z ]}
        ∧ w_heap w' = ∅.
Proof.
  destruct (destructor_releases_payload 8 copyable_function world_large 1 b_lambda)
    as (w' & E & Hu & Hi & _ & Hh & _).
  - compute_goal.
  - exists w'. by split_and!.
Defined.

Lemma reassignment_replaces_payload_witness :
  ∃ w', assign_callable 8 false copyable_function 1 (copied_in a_lambda) world_large
        = Ok tt w'
        ∧ holds 8 copyable_function w' 1 a_lambda
        ∧ w_ints w' = {[ a_value := 1%Z; b_value := 0%Z ]}
        ∧ w_heap w' = ∅.
Proof.
  destruct (reassignment_replaces_payload 8 false copyable_function world_large 1
              (copied_in a_lambda) (Some b_lambda))
    as (w' & E & Hh & Hi & Hp & _).
  - reflexivity.
  - reflexivity.
  - compute_goal.
  - exists w'. split_and!; [done|done| |done].
    rewrite Hi. by vm_compute.
Defined.

Lemma copy_construction_in_place_witness :
  ∃ w' w'', ctor_copy 8 copyable_function 3 1 world_small = Ok tt w'
        ∧ holds 8 copyable_function w' 1 a_lambda
        ∧ holds 8 copyable_function w' 3 a_lambda
        ∧ w_ints w' = {[ a_value := 2%Z ]}
        ∧ call 8 false counting_body false copyable_function 3 5 w' = Ok 102%Z w''
        ∧ holds 8 copyable_function w'' 1 a_lambda.
Proof.
  destruct (copy_construction_in_place 8 false counting_body false copyable_function
              world_small 3 1 a_lambda 5)
    as (w' & E & Ha & Hb & _ & Hi & _ & _ & (w'' & Ec & Ha' & _)).
  - reflexivity.
  - discriminate.
  - compute_goal.
  - reflexivity.
  - exists w', w''. by split_and!.
Defined.
Lemma copy_assignment_same_type_witness :
  ∃ w', assign_copy 8 copyable_function 2 1 world_twins = Ok tt w'
        ∧ holds 8 copyable_function w' 2 a_lambda
        ∧ holds 8 copyable_function w' 1 a_lambda
        ∧ w_ints w' = {[ a_value := 3%Z ]}.
Proof.
  destruct (copy_assignment_same_type 8 copyable_function world_twins 2 1
              (set_state a_lambda 98) a_lambda)
    as (w' & E & Hb & Ha & Hi & _).
  - reflexivity.
  - discriminate.
  - compute_goal.
  - compute_goal.
  - reflexivity.
  - reflexivity.
  - exists w'. split_and!; [done..|]. rewrite Hi. by vm_compute.
Defined.

Lemma copy_assignment_undefined_witness :
  assign_copy 8 copyable_function 1 2 world_both = UB
  ∧ holds 8 copyable_function world_both 2 b_lambda.
Proof.
  assert (H : holds 8 copyable_function world_both 2 b_lambda) by compute_goal.
  split; [|exact H].
  apply (copy_assignment_undefined 8 copyable_function world_both 1 2 a_lambda).
  - reflexivity.
  - compute_goal.
  - right. exists b_lambda. split; [exact H|discriminate].
Defined.

Lemma lifetime_restores_free_store_witness :
  ∃ w', (ctor_callable 8 false move_only_function 1 plain_argument;;
         ctor_move 8 move_only_function 2 1;;
         dtor 8 move_only_function 2;;
         dtor 8 move_only_function 1) world_start = Ok tt w'
        ∧ w_heap w' = ∅
        ∧ w_ints w' = {[ a_value := 1%Z; b_value := 0%Z ]}.
Proof.
  destruct (lifetime_restores_free_store 8 false move_only_function world_start 1 2
              plain_argument)
    as (w' & E & Hh & Hi & _).
  - reflexivity.
  - reflexivity.
  - discriminate.
  - exists w'. split_and!; [done|done|]. rewrite Hi. by vm_compute.
Defined.

Lemma in_place_classes_never_allocate_witness :
  ∃ w', run 8 false counting_body false (inplace_move_only_function 16)
          (op_ctor_callable 3 (moved_in a_lambda)) world_small = Ok tt w'
        ∧ holds 8 (inplace_move_only_function 16) w' 3 a_lambda
        ∧ w_heap w' = ∅.
Proof.
  eexists. split; [by vm_compute|]. split; [compute_goal|].
  eapply (in_place_classes_never_allocate 8 false counting_body false
           (inplace_move_only_function 16) (op_ctor_callable 3 (moved_in a_lambda))
           world_small).
  - reflexivity.
  - by vm_compute.
Defined.

Lemma calls_answer_as_payload_witness :
  ∃ w', calls 8 false counting_body false copyable_function 1 [1; 2; 3]%Z world_small
        = Ok [98; 100; 102]%Z w'
        ∧ holds 8 copyable_function w' 1 (set_state a_lambda 100).
Proof.
  destruct (calls_answer_as_payload 8 false counting_body false copyable_function
              [1; 2; 3]%Z world_small 1 a_lambda)
    as (w' & E & Hh & _).
  - compute_goal.
  - exists w'. by split.
Defined.

Lemma moved_from_container_is_reusable_witness :
  ∃ w' w2, ctor_move 8 move_only_function 3 1 world_large = Ok tt w'
        ∧ call 8 true counting_body false move_only_function 1 5 w'
          = Throw bad_function_call w'
        ∧ assign_callable 8 false move_only_function 1 (moved_in a_lambda) w' = Ok tt w2
        ∧ holds 8 move_only_function w2 1 a_lambda
        ∧ holds 8 move_only_function w2 3 b_lambda.
Proof.
  destruct (moved_from_container_is_reusable 8 true counting_body false
              move_only_function world_large 1 3 b_lambda (moved_in a_lambda) 5)
    as (w' & E & Ec & _ & (w2 & E2 & Hc & Hd)).
  - discriminate.
  - compute_goal.
  - reflexivity.
  - reflexivity.
  - exists w', w2. by split_and!.
Defined.

Lemma operations_touch_only_operands_witness :
  ∃ w', run 8 false counting_body false copyable_function (op_assign_nullptr 1)
          world_both = Ok tt w'
        ∧ w_vtable w' !! 1 = Some (Some null_vtable)
        ∧ w_vtable w' !! 2 = Some (Some (callable_vtable large_closure))
        ∧ w_storage w' !! 2 = Some (Allocated 50).
Proof.
  eexists. split; [by vm_compute|]. split; [by vm_compute|].
  eapply (operations_touch_only_operands 8 false counting_body false
            copyable_function (op_assign_nullptr 1) world_both _ 2).
  - by vm_compute.
  - apply not_elem_of_cons. split; [discriminate|apply not_elem_of_nil].
Defined.

Lemma world_start_well_formed V : well_formed 8 V world_start.
Proof.
  split.
  - intros l v Hv. simpl in Hv. by rewrite lookup_empty in Hv.
  - intros l1 l2 p H _. unfold owned in H. simpl in H. by rewrite lookup_empty in H.
Qed.

Lemma world_start_no_leak V : no_leak 8 V world_start.
Proof. intros p [o Hp]. simpl in Hp. by rewrite lookup_empty in Hp. Qed.


Lemma operations_keep_containers_well_formed_witness :
  ∃ w', run_all 8 false counting_body false move_only_function client_program
          world_start = Ok tt w'
        ∧ well_formed 8 move_only_function w'.
Proof.
  eexists. split; [vm_compute; reflexivity|].
  eapply (operations_keep_containers_well_formed 8 false counting_body false
            move_only_function client_program world_start).
  - apply world_start_well_formed.
  - apply (bool_decide_unpack _). vm_compute. exact I.
  - vm_compute. reflexivity.
Defined.

Lemma programs_leak_nothing_witness :
  ∃ w', run_all 8 false counting_body false move_only_function client_program
          world_start = Ok tt w'
        ∧ w_vtable w' = ∅
        ∧ no_leak 8 move_only_function w'
        ∧ w_heap w' = ∅.
Proof.
  eexists. split; [vm_compute; reflexivity|]. split; [vm_compute; reflexivity|].
  lazymatch goal with
  | |- no_leak _ _ ?W ∧ _ =>
      destruct (programs_leak_nothing 8 false counting_body false move_only_function
                  client_program world_start W (world_start_well_formed _)
                  (world_start_no_leak _))
        as (_ & Hnl & Hh)
  end.
  - vm_compute. reflexivity.
  - vm_compute. reflexivity.
  - split; [exact Hnl|]. apply Hh. vm_compute. reflexivity.
Defined.


Lemma self_move_assignment_witness :
  ∃ p w', assign_move 8 true move_only_function 1 1 world_large = Ok tt w'
        ∧ w_vtable w' !! 1 = Some (Some (callable_vtable large_closure))
        ∧ w_storage w' !! 1 = Some (Allocated p)
        ∧ w_heap w' !! p = None.
Proof.
  assert (H : holds 8 move_only_function world_large 1 b_lambda) by compute_goal.
  apply (self_move_assignment 8 true move_only_function world_large 1 b_lambda) in H.
  destruct H as (p & w' & E & Hv & Hs & Hh & _).
  exists p, w'. split; [exact E|]. split; [exact Hv|]. split; [exact Hs|exact Hh].
Defined.

Lemma function_ptr_calls_its_target_witness :
  ∃ p, function_ptr.assign false fp_lvalue = Some p
       ∧ function_ptr.m_target p = 200
       ∧ function_ptr_call false counting_body p 5 targets = Returns 6 targets.
Proof.
  eexists. split; [reflexivity|]. split; [reflexivity|].
  apply (function_ptr_calls_its_target false counting_body false fp_lvalue _ 5 targets).
  - reflexivity.
  - reflexivity.
  - intros E. discriminate E.
Defined.

Lemma function_ref_calls_its_target_witness :
  ∃ r, function_ref.ctor_callable false (arg_functor lvalue small_closure 400) = Some r
       ∧ function_ref_call false counting_body r 5 targets
         = Returns 102 (<[400 := a_functor small_closure 98]> targets).
Proof.
  eexists. split; [reflexivity|].
  apply (function_ref_calls_its_target false counting_body false
           (arg_functor lvalue small_closure 400) _ 5 targets).
  - reflexivity.
  - exact I.
  - intros E. discriminate E.
Defined.

Lemma wrappers_follow_pointer_variable_witness :
  ∃ p r q,
    function_ptr.assign false fp_lvalue = Some p
    ∧ function_ref.ctor_callable false fp_lvalue = Some r
    ∧ function_ptr.assign false fp_rvalue = Some q
    ∧ function_ptr_call false counting_body p 5 (<[200 := a_function_pointer 301]> targets)
      = Returns 4 (<[200 := a_function_pointer 301]> targets)
    ∧ function_ref_call false counting_body r 5 (<[200 := a_function_pointer 301]> targets)
      = Returns 4 (<[200 := a_function_pointer 301]> targets)
    ∧ function_ptr_call false counting_body q 5 (<[200 := a_function_pointer 301]> targets)
      = Returns 6 (<[200 := a_function_pointer 301]> targets).
Proof.
  do 3 eexists. split; [reflexivity|]. split; [reflexivity|]. split; [reflexivity|].
  apply (wrappers_follow_pointer_variable false counting_body false 200 200 300 301
           false _ _ _ 5 targets);
    first [reflexivity | intros E; discriminate E].
Defined.

Lemma null_function_ptr_witness :
  function_ptr.operator_bool function_ptr.ctor_default = false
  ∧ function_ptr.eq_nullptr function_ptr.ctor_default = true
  ∧ function_ptr.ne_nullptr function_ptr.ctor_default = false
  ∧ ∀ x mem, function_ptr_call false counting_body function_ptr.ctor_default x mem
             = Aborts.
Proof.
  apply (null_function_ptr false counting_body function_ptr.ctor_default).
  left. reflexivity.
Defined.

Lemma wrappers_do_not_own_witness :
  ∃ p r,
    function_ptr.assign false (arg_functor rvalue small_closure 400) = Some p
    ∧ function_ref.ctor_callable false (arg_functor rvalue small_closure 400) = Some r
    ∧ function_ptr.operator_bool p = true
    ∧ function_ptr_call false counting_body p 5 (delete 400 targets) = Undefined
    ∧ function_ref_call false counting_body r 5 (delete 400 targets) = Undefined.
Proof.
  do 2 eexists. split; [reflexivity|]. split; [reflexivity|].
  apply (wrappers_do_not_own false counting_body false rvalue small_closure 400 _ _ 5
           targets);
    first [reflexivity | intros E; discriminate E].
Defined.

Lemma observers_report_contents_witness :
  (operator_bool 1 world_small = Ok true world_small
   ∧ eq_nullptr 1 world_small = Ok false world_small
   ∧ ne_nullptr 1 world_small = Ok true world_small)
  ∧ (operator_bool 2 world_small = Ok false world_small
     ∧ eq_nullptr 2 world_small = Ok true world_small
     ∧ ne_nullptr 2 world_small = Ok false world_small).
Proof.
  split.
  - apply (observers_report_contents 8 copyable_function world_small 1 (Some a_lambda)).
    compute_goal.
  - apply (observers_report_contents 8 copyable_function world_small 2 None).
    compute_goal.
Defined.
